(** * downcan: scan a directory tree for ZIP archives and expand them

    A shallow embedding of [downcan.go] (package [downcan]) and the
    properties of its scanner, destination resolver, extractor and
    orchestrator.

    Layout of the development:
    - [GoString]: Go string slicing and the [path/filepath] functions the
      program calls ([Clean], [Join], [Dir], [Base]), Unix flavour;
    - [FileSystem]: an in-memory file tree with the [os] calls the program
      makes ([Stat], [MkdirAll], [Open]/[Read], [Create], [Walk]);
    - [Downcan]: the program itself, function by function, in a small
      state-and-panic monad over the file tree and a trace of the calls made;
    - the theorems. *)

From Stdlib Require Import List String Ascii Bool ZArith Lia Arith.
From Stdlib.Strings Require Import Byte.
Import ListNotations.

Local Open Scope string_scope.
Local Open Scope list_scope.

Set Warnings "-register-all".

(* ================================================================= *)
(** ** Go values: panics, errors *)

(** A Go expression either yields a value or panics at run time. *)
Inductive Go (A : Type) : Type :=
| Value (a : A)
| Panic (msg : string).
Arguments Value {A} a.
Arguments Panic {A} msg.

(** Go [error] values.  The first group are the errors of the operating
    system and of the standard library that the program can meet; [Errorf]
    is [fmt.Errorf(msg + ": %w", cause)] and [ErrorNew] is an [fmt.Errorf]
    without a wrapped cause.  [SkipDir] and [SkipAll] are the two sentinel
    values of [path/filepath]. *)
Inductive error : Type :=
| ENOENT            (* no such file or directory *)
| ENOTDIR           (* not a directory *)
| EISDIR            (* is a directory *)
| EACCES            (* permission denied *)
| EOF               (* io.EOF *)
| ErrFormat         (* zip: not a valid zip file *)
| ErrChecksum       (* zip: checksum error *)
| ErrAlgorithm      (* zip: unsupported compression algorithm *)
| SkipDir
| SkipAll
| ErrorNew (msg : string)
| Errorf (msg : string) (cause : error).

Definition is_SkipDir (e : error) : bool :=
  match e with SkipDir => true | _ => false end.

Definition is_SkipAll (e : error) : bool :=
  match e with SkipAll => true | _ => false end.

(** A call returning [(T, error)]. *)
Inductive result (A : Type) : Type :=
| Ok (a : A)
| Err (e : error).
Arguments Ok {A} a.
Arguments Err {A} e.

(* ================================================================= *)
(** ** Strings and paths *)

Module GoString.

(** [len(s)] as a Go [int]. *)
Definition len (s : string) : Z := Z.of_nat (String.length s).

(** [s[:hi]]: panics unless [0 <= hi <= len(s)]. *)
Definition sliceTo (s : string) (hi : Z) : Go string :=
  if ((hi <? 0) || (len s <? hi))%Z
  then Panic "slice bounds out of range"
  else Value (substring 0 (Z.to_nat hi) s).

Definition slash : ascii := "/"%char.

Definition isSlash (c : ascii) : bool := Ascii.eqb c slash.

(** [strings.Split(s, "/")]. *)
Fixpoint splitSlash (s : string) : list string :=
  match s with
  | EmptyString => [EmptyString]
  | String c s' =>
      if isSlash c then EmptyString :: splitSlash s'
      else match splitSlash s' with
           | h :: t => String c h :: t
           | [] => [String c EmptyString]
           end
  end.

(** Index of the last separator of [s], the result of the backward scan
    [for i >= 0 && !IsPathSeparator(path[i]) { i-- }]. *)
Fixpoint lastSlash (s : string) : option nat :=
  match s with
  | EmptyString => None
  | String c s' =>
      match lastSlash s' with
      | Some i => Some (S i)
      | None => if isSlash c then Some 0 else None
      end
  end.

(** Removes the trailing separators of [s]. *)
Fixpoint stripTrailingSlashes (s : string) : string :=
  match s with
  | EmptyString => EmptyString
  | String c s' =>
      match stripTrailingSlashes s' with
      | EmptyString => if isSlash c then EmptyString else String c EmptyString
      | r => String c r
      end
  end.

(** The element pass of [filepath.Clean]: [out] is the stack of elements
    kept so far, innermost first.  Empty elements and ["."] are dropped; a
    [".."] cancels the element before it when there is one, is dropped at
    the root of a rooted path and is kept at the head of a relative one. *)
Fixpoint cleanElems (rooted : bool) (out : list string) (elems : list string)
  : list string :=
  match elems with
  | [] => rev out
  | e :: rest =>
      if String.eqb e "" || String.eqb e "." then cleanElems rooted out rest
      else if String.eqb e ".." then
        match out with
        | top :: below =>
            if String.eqb top ".."
            then cleanElems rooted (e :: out) rest
            else cleanElems rooted below rest
        | [] =>
            if rooted then cleanElems rooted out rest
            else cleanElems rooted (e :: out) rest
        end
      else cleanElems rooted (e :: out) rest
  end.

(** [filepath.Clean]. *)
Definition Clean (path : string) : string :=
  match path with
  | EmptyString => "."
  | String c _ =>
      let rooted := isSlash c in
      let elems := cleanElems rooted [] (splitSlash path) in
      if rooted then "/" ++ String.concat "/" elems
      else match elems with
           | [] => "."
           | _ => String.concat "/" elems
           end
  end.

(** [strings.Join(elem, "/")] of the elements from the first non-empty one
    on, cleaned; [""] when every element is empty: [filepath.Join]. *)
Fixpoint Join (elem : list string) : string :=
  match elem with
  | [] => ""
  | e :: rest =>
      if String.eqb e "" then Join rest
      else Clean (String.concat "/" elem)
  end.

(** [filepath.Dir]: all but the last element of [path], cleaned. *)
Definition Dir (path : string) : string :=
  match lastSlash path with
  | Some i => Clean (substring 0 (S i) path)
  | None => Clean ""
  end.

(** [filepath.Base]: the last element of [path]. *)
Definition Base (path : string) : string :=
  match path with
  | EmptyString => "."
  | _ =>
      let p := stripTrailingSlashes path in
      let last := match lastSlash p with
                  | Some i => substring (S i) (String.length p - S i) p
                  | None => p
                  end in
      match last with
      | EmptyString => "/"
      | _ => last
      end
  end.

End GoString.

Import GoString.

(* ================================================================= *)
(** ** Destination resolver *)

(** [getExpandedPath], downcan.go lines 180-185. *)
Definition getExpandedPath (zipFilePath : string) : Go string :=
  let baseDir := Dir zipFilePath in
  let zipFileName := Base zipFilePath in
  match sliceTo zipFileName (len zipFileName - 4) with
  | Panic msg => Panic msg
  | Value stem => Value (Join [baseDir; "expanded"; stem])
  end.

(* ================================================================= *)
(** ** The file tree and the [os] calls *)

Module FileSystem.

(** A file tree.  A regular file carries its bytes and whether the process
    may open it; a directory carries whether the process may list it and
    its entries, kept in the order [ReadDir] followed by a sort returns
    them (see [put]).  There are no symbolic links. *)
Inductive node : Type :=
| File (accessible : bool) (data : list byte)
| Directory (listable : bool) (entries : list (string * node)).

(** The part of [os.FileInfo] the program looks at. *)
Record FileInfo : Type := { IsDir : bool }.

Definition infoOf (n : node) : FileInfo :=
  match n with
  | File _ _ => {| IsDir := false |}
  | Directory _ _ => {| IsDir := true |}
  end.

Fixpoint assoc (name : string) (es : list (string * node)) : option node :=
  match es with
  | [] => None
  | (k, v) :: es' => if String.eqb k name then Some v else assoc name es'
  end.

(** Binds [name] to [n]: in place when the name is there, otherwise before
    the first greater name. *)
Fixpoint put (name : string) (n : node) (es : list (string * node))
  : list (string * node) :=
  match es with
  | [] => [(name, n)]
  | (k, v) :: es' =>
      if String.eqb k name then (name, n) :: es'
      else if String.ltb name k then (name, n) :: (k, v) :: es'
      else (k, v) :: put name n es'
  end.

(** The elements a path names, from the root of the tree.  The working
    directory of the process is the root, so a relative path and the rooted
    one name the same node, and [".."] at the root stays there.  The empty
    path, which the system calls refuse, is not told apart from the root:
    the program never passes it, as [run] refuses an empty data directory
    and every other path it uses is a [Join] with an element that is not
    empty. *)
Definition elements (path : string) : list string :=
  cleanElems true [] (splitSlash path).

Fixpoint lookup (n : node) (elems : list string) : result node :=
  match elems with
  | [] => Ok n
  | e :: rest =>
      match n with
      | File _ _ => Err ENOTDIR
      | Directory _ es =>
          match assoc e es with
          | Some child => lookup child rest
          | None => Err ENOENT
          end
      end
  end.

(** [os.Stat] and [os.Lstat]. *)
Definition Stat (fs : node) (path : string) : result FileInfo :=
  match lookup fs (elements path) with
  | Ok n => Ok (infoOf n)
  | Err e => Err e
  end.

(** [os.MkdirAll] along [elems]: every missing directory is created; a
    regular file on the way is an error, and nothing is created then.  The
    tree has no write permissions: the process may add entries to every
    directory, so the other errors of the call (a directory that may not
    be written to, a read-only or full file system) do not arise here.  The
    callers take any error it returns. *)
Fixpoint mkdirAll (n : node) (elems : list string) : result node :=
  match n with
  | File _ _ => Err ENOTDIR
  | Directory l es =>
      match elems with
      | [] => Ok n
      | e :: rest =>
          let child := match assoc e es with
                       | Some c => c
                       | None => Directory true []
                       end in
          match mkdirAll child rest with
          | Ok child' => Ok (Directory l (put e child' es))
          | Err err => Err err
          end
      end
  end.

Definition MkdirAll (fs : node) (path : string) : result node :=
  mkdirAll fs (elements path).

(** Makes the regular file at [elems] hold [data].  The directory that is
    to hold it must exist; a directory of that name, or a file the process
    may not open, is an error. *)
Fixpoint writeFile (n : node) (elems : list string) (data : list byte)
  : result node :=
  match n with
  | File _ _ => Err ENOTDIR
  | Directory l es =>
      match elems with
      | [] => Err EISDIR
      | [e] =>
          match assoc e es with
          | Some (Directory _ _) => Err EISDIR
          | Some (File false _) => Err EACCES
          | _ => Ok (Directory l (put e (File true data) es))
          end
      | e :: rest =>
          match assoc e es with
          | Some child =>
              match writeFile child rest data with
              | Ok child' => Ok (Directory l (put e child' es))
              | Err err => Err err
              end
          | None => Err ENOENT
          end
      end
  end.

(** [os.Create]: creates the file or truncates it. *)
Definition Create (fs : node) (path : string) : result node :=
  writeFile fs (elements path) [].

(** An open file: what [os.Open] returns. *)
Inductive handle : Type :=
| FileHandle (data : list byte) (offset : nat)
| DirHandle.

(** [os.Open]. *)
Definition Open (fs : node) (path : string) : result handle :=
  match lookup fs (elements path) with
  | Ok (File true data) => Ok (FileHandle data 0)
  | Ok (File false _) => Err EACCES
  | Ok (Directory _ _) => Ok DirHandle
  | Err e => Err e
  end.

(** [file.Read(buffer)]: the bytes read overwrite the head of the buffer,
    the rest of the buffer is left as it was.  Returns the buffer, the
    number of bytes read, the error and the handle moved on.  At the end of
    the file it reads nothing and returns [io.EOF]. *)
Definition Read (h : handle) (buffer : list byte)
  : list byte * nat * option error * handle :=
  match h with
  | DirHandle => (buffer, 0, Some EISDIR, h)
  | FileHandle data offset =>
      let rest := skipn offset data in
      match rest, buffer with
      | _, [] => (buffer, 0, None, h)
      | [], _ => (buffer, 0, Some EOF, h)
      | _, _ =>
          let got := firstn (List.length buffer) rest in
          let n := List.length got in
          (got ++ skipn n buffer, n, None, FileHandle data (offset + n))
      end
  end.

(** [file.Seek(0, 0)]. *)
Definition SeekStart (h : handle) : option error * handle :=
  match h with
  | DirHandle => (None, h)
  | FileHandle data _ => (None, FileHandle data 0)
  end.

End FileSystem.

Import FileSystem.

(* ================================================================= *)
(** ** Command-line options, log records, the trace *)

(** The [opts] struct. *)
Record Options : Type := {
  LogFormat : string;
  Verbose : list bool;
  logLevel : Z;
  DataDirectory : string
}.

Inductive Level : Type := LevelDebug | LevelInfo | LevelWarn | LevelError.

(** The value of a log attribute. *)
Inductive attr : Type :=
| AString (s : string)
| AInt (n : Z)
| AStrings (l : list string)
| AError (e : error)
| AOpts (o : Options).

(** What the program does to the outside, in the order it does it: the
    [slog] records it hands to the logger and the [os], [archive/zip] and
    [io] calls it makes, whether they succeed or not. *)
Inductive Event : Type :=
| Slog (level : Level) (msg : string) (attrs : list (string * attr))
| OsStat (path : string)
| OsMkdirAll (path : string)
| OsOpen (path : string)
| OsCreate (path : string)
| IoCopy (path : string)
| ZipOpenReader (path : string)
| ZipFileOpen (name : string)
| FilepathWalk (root : string).

Record World : Type := { fs : node; trace : list Event }.

Definition emit (e : Event) (w : World) : World :=
  {| fs := fs w; trace := trace w ++ [e] |}.

Definition setFs (n : node) (w : World) : World :=
  {| fs := n; trace := trace w |}.

(* ================================================================= *)
(** ** The monad of the program: state, trace and panic *)

Inductive Outcome (A : Type) : Type :=
| Returned (a : A) (w : World)
| Panicked (msg : string) (w : World).
Arguments Returned {A} a w.
Arguments Panicked {A} msg w.

Definition M (A : Type) : Type := World -> Outcome A.

Definition ret {A : Type} (a : A) : M A := fun w => Returned a w.

Definition bind {A B : Type} (m : M A) (k : A -> M B) : M B :=
  fun w =>
    match m w with
    | Returned a w' => k a w'
    | Panicked msg w' => Panicked msg w'
    end.

Definition liftGo {A : Type} (g : Go A) : M A :=
  fun w =>
    match g with
    | Value a => Returned a w
    | Panic msg => Panicked msg w
    end.

Declare Scope go_scope.
Delimit Scope go_scope with go.
Notation "x <- m ;; k" := (bind m (fun x => k))
  (at level 100, m at next level, right associativity) : go_scope.
Notation "' pat <- m ;; k" := (bind m (fun x => match x with pat => k end))
  (at level 100, pat pattern, m at next level, right associativity)
  : go_scope.
Notation "m ;; k" := (bind m (fun _ => k))
  (at level 100, right associativity) : go_scope.
Local Open Scope go_scope.

Definition slog (level : Level) (msg : string) (attrs : list (string * attr))
  : M unit :=
  fun w => Returned tt (emit (Slog level msg attrs) w).

Definition os_Stat (path : string) : M (result FileInfo) :=
  fun w => Returned (Stat (fs w) path) (emit (OsStat path) w).

Definition os_MkdirAll (path : string) : M (option error) :=
  fun w =>
    let w1 := emit (OsMkdirAll path) w in
    match MkdirAll (fs w) path with
    | Ok fs' => Returned None (setFs fs' w1)
    | Err e => Returned (Some e) w1
    end.

Definition os_Open (path : string) : M (result handle) :=
  fun w => Returned (Open (fs w) path) (emit (OsOpen path) w).

Definition os_Create (path : string) : M (option error) :=
  fun w =>
    let w1 := emit (OsCreate path) w in
    match Create (fs w) path with
    | Ok fs' => Returned None (setFs fs' w1)
    | Err e => Returned (Some e) w1
    end.

(** A member of an archive as [archive/zip] presents it: its name, whether
    its mode says directory, and what reading it gives: [Open] fails, or the
    stream delivers [data] and then ends, cleanly or with an error. *)
Inductive Payload : Type :=
| OpenFails (e : error)
| Stream (data : list byte) (end_ : option error).

Record ZipFile : Type := {
  Name : string;
  entryIsDir : bool;
  payload : Payload
}.

(** [io.Copy(f, rc)] where [f] is the file just created at [path]: what the
    stream delivers ends up in the file, also when the stream then fails. *)
Definition io_Copy (path : string) (data : list byte) (end_ : option error)
  : M (option error) :=
  fun w =>
    let w1 := emit (IoCopy path) w in
    match writeFile (fs w) (elements path) data with
    | Ok fs' => Returned end_ (setFs fs' w1)
    | Err e => Returned (Some e) w1
    end.

(** [filepath.WalkFunc]; [S] holds the variables the closure captures. *)
Definition WalkFunc (S : Type) : Type :=
  string -> option FileInfo -> option error -> S -> M (S * option error).

Definition isSome {A : Type} (o : option A) : bool :=
  match o with Some _ => true | None => false end.

(** The loop of [walk] over the entries of the directory [path]; [rec] is
    [walk] itself.  An error coming back from an entry ends the loop,
    except [SkipDir] coming back from a directory. *)
Definition walkNames {S : Type}
  (rec : string -> node -> S -> M (S * option error)) (path : string)
  : list (string * node) -> S -> M (S * option error) :=
  fix loop (es : list (string * node)) (s : S) : M (S * option error) :=
    match es with
    | [] => ret (s, None)
    | (name, child) :: es' =>
        let filename := Join [path; name] in
        '(s', r) <- rec filename child s ;;
        match r with
        | None => loop es' s'
        | Some e =>
            if IsDir (infoOf child) && is_SkipDir e
            then loop es' s'
            else ret (s', Some e)
        end
    end.

(** The recursive [walk] of [path/filepath]: the callback is called on
    [path]; for a directory it is told whether listing it failed, and the
    entries are then walked in order.  The node of an entry is the result
    of the [lstat] of the joined name. *)
Fixpoint walk {S : Type} (walkFn : WalkFunc S) (path : string) (n : node)
  (s : S) {struct n} : M (S * option error) :=
  match n with
  | File _ _ => walkFn path (Some (infoOf n)) None s
  | Directory listable entries =>
      let err := if listable then None else Some EACCES in
      '(s1, err1) <- walkFn path (Some (infoOf n)) err s ;;
      if isSome err || isSome err1 then ret (s1, err1)
      else walkNames (walk walkFn) path entries s1
  end.

(** [filepath.Walk]. *)
Definition Walk {S : Type} (root : string) (walkFn : WalkFunc S) (s : S)
  : M (S * option error) :=
  fun w =>
    let w1 := emit (FilepathWalk root) w in
    let walked :=
      match lookup (fs w) (elements root) with
      | Err e => walkFn root None (Some e) s
      | Ok n => walk walkFn root n s
      end in
    ('(s', r) <- walked ;;
     match r with
     | Some e => if is_SkipDir e || is_SkipAll e then ret (s', None)
                 else ret (s', Some e)
     | None => ret (s', None)
     end) w1.

(** [for _, x := range xs { body }] where the body ends or does [continue]. *)
Fixpoint forRange {A : Type} (xs : list A) (body : A -> M unit) : M unit :=
  match xs with
  | [] => ret tt
  | x :: rest => body x ;; forRange rest body
  end.

(** [for _, x := range xs { body }] where the body may [return err]: the
    loop stops at the first error and the function returns it. *)
Fixpoint forRangeErr {A : Type} (xs : list A) (body : A -> M (option error))
  : M (option error) :=
  match xs with
  | [] => ret None
  | x :: rest =>
      err <- body x ;;
      match err with
      | Some e => ret (Some e)
      | None => forRangeErr rest body
      end
  end.

(* ================================================================= *)
(** ** Sample collaborators and sample trees

    Concrete stand-ins for the two library functions the program is
    parametric in, and small file trees, used to run the program. *)

Module Samples.

Definition bytes (s : string) : list byte := list_byte_of_string s.

Fixpoint bytesEqb (a b : list byte) : bool :=
  match a, b with
  | [], [] => true
  | x :: a', y :: b' => Byte.eqb x y && bytesEqb a' b'
  | _, _ => false
  end.

Fixpoint hasPrefix (sig data : list byte) : bool :=
  match sig, data with
  | [], _ => true
  | x :: sig', y :: data' => Byte.eqb x y && hasPrefix sig' data'
  | _, _ => false
  end.

(** The bytes the text rule of the sniffing table takes for binary data. *)
Definition isBinaryByte (b : byte) : bool :=
  let n := Byte.to_N b in
  ((n <=? 8) || (n =? 11) || ((14 <=? n) && (n <=? 26))
   || ((28 <=? n) && (n <=? 31)))%N.

(** [PK\x03\x04], the signature of a ZIP local file header. *)
Definition zipMagic : list byte := [x50; x4b; x03; x04].

(** The rules of [http.DetectContentType] that the sample files reach: at
    most 512 bytes are looked at; the ZIP signature; and at the end of the
    table the text rule, with [application/octet-stream] when it fails. *)
Definition sniffSample (data : list byte) : string :=
  let data := firstn 512 data in
  if hasPrefix zipMagic data then "application/zip"
  else if existsb isBinaryByte data then "application/octet-stream"
  else "text/plain; charset=utf-8".

Definition dirEntry (name : string) : ZipFile :=
  {| Name := name; entryIsDir := true; payload := Stream [] None |}.

Definition fileEntry (name : string) (content : string) : ZipFile :=
  {| Name := name; entryIsDir := false;
     payload := Stream (bytes content) None |}.

(** The members [a/], [a/b.txt] and [c.txt], directory marker first. *)
Definition dirsFirst : list ZipFile :=
  [dirEntry "a/"; fileEntry "a/b.txt" "hello"; fileEntry "c.txt" "world"].

(** The same members, the file under [a/] before the marker of [a/]. *)
Definition filesFirst : list ZipFile :=
  [fileEntry "a/b.txt" "hello"; dirEntry "a/"; fileEntry "c.txt" "world"].

(** A member whose stream delivers three bytes and then fails. *)
Definition damaged : list ZipFile :=
  [{| Name := "x.txt"; entryIsDir := false;
      payload := Stream (bytes "par") (Some ErrChecksum) |}].

Definition archive1 : list byte := zipMagic ++ [x01].
Definition archive2 : list byte := zipMagic ++ [x02].
Definition archive3 : list byte := zipMagic ++ [x03].

(** A decoder that knows three archives; any other content is not one. *)
Definition zipSample (data : list byte) : result (list ZipFile) :=
  if bytesEqb data archive1 then Ok dirsFirst
  else if bytesEqb data archive2 then Ok filesFirst
  else if bytesEqb data archive3 then Ok damaged
  else Err ErrFormat.

Definition optsFor (dir : string) : Options :=
  {| LogFormat := "text"; Verbose := []; logLevel := 0;
     DataDirectory := dir |}.

Definition flagsSample (args : list string) : Options * option error :=
  match args with
  | ["--data-dir"; dir] => (optsFor dir, None)
  | _ => (optsFor "", Some (ErrorNew "unknown flag"))
  end.

Definition setLogLevelSample (o : Options) : Options * option error :=
  (o, None).

Definition setupLoggerSample (o : Options) : option error := None.

Definition world (tree : node) : World := {| fs := tree; trace := [] |}.

(** A directory [foo] of incoming files and an empty directory [out]. *)
Definition treeIn : node :=
  Directory true
    [("foo",
      Directory true
        [("archive.zip", File true (bytes "plain text"));
         ("bar.zip", File true archive1);
         ("baz.zip", File true archive2);
         ("broken.zip", File true archive3);
         ("data.bin", File true archive1);
         ("empty", File true []);
         ("hello.txt", File true (bytes "hello"));
         ("secret", File false (bytes "x"))]);
     ("out", Directory true [])].

(** An archive whose name has one byte, and an archive after it. *)
Definition treeShort : node :=
  Directory true
    [("d",
      Directory true
        [("a", File true archive1); ("b.zip", File true archive1)])].

(** An archive that was expanded before. *)
Definition treeDone : node :=
  Directory true
    [("foo",
      Directory true
        [("bar.zip", File true archive1);
         ("expanded",
          Directory true
            [("bar", Directory true [("old.txt", File true (bytes "kept"))])])])].

(** An archive and a regular file where its destination would be. *)
Definition treeFileInTheWay : node :=
  Directory true
    [("foo",
      Directory true
        [("bar.zip", File true archive1);
         ("expanded",
          Directory true [("bar", File true (bytes "not a directory"))])])].

(** An archive next to a directory that cannot be listed. *)
Definition treeLocked : node :=
  Directory true
    [("foo",
      Directory true
        [("bar.zip", File true archive1);
         ("locked", Directory false [("inner.zip", File true archive1)])])].

(** One damaged archive. *)
Definition treeBroken : node :=
  Directory true
    [("foo", Directory true [("broken.zip", File true archive3)])].

(** A file with the signature of an archive that the decoder refuses. *)
Definition treeCorrupt : node :=
  Directory true
    [("foo", Directory true [("bad.zip", File true (zipMagic ++ [x09]))])].

(** An archive next to a regular file named [expanded]. *)
Definition treeBlocked : node :=
  Directory true
    [("foo",
      Directory true
        [("bar.zip", File true archive1);
         ("expanded", File true (bytes "in the way"))])].

(** Two archives whose names differ in their last four bytes. *)
Definition treeTwins : node :=
  Directory true
    [("foo",
      Directory true
        [("bar.tgz", File true archive2); ("bar.zip", File true archive1)])].

(** Two files of more than 512 bytes that differ behind the 512th. *)
Definition longText1 : list byte := repeat x41 512 ++ [x01].
Definition longText2 : list byte := repeat x41 512 ++ [x02; x03].
Definition treeLong : node :=
  Directory true
    [("foo",
      Directory true
        [("one", File true longText1); ("two", File true longText2)])].

(** An archive whose one member, [inner.zip], holds an archive itself. *)
Definition archive4 : list byte := zipMagic ++ [x04].

Definition nested : list ZipFile :=
  [{| Name := "inner.zip"; entryIsDir := false;
      payload := Stream archive1 None |}].

(** The sample decoder with the nested archive added. *)
Definition zipNested (data : list byte) : result (list ZipFile) :=
  if bytesEqb data archive4 then Ok nested else zipSample data.

(** A directory with the nested archive and nothing else. *)
Definition treeNested : node :=
  Directory true [("foo", Directory true [("bar.zip", File true archive4)])].

(** An archive that was expanded before, with an archive in its
    destination. *)
Definition treeInside : node :=
  Directory true
    [("foo",
      Directory true
        [("bar.zip", File true archive1);
         ("expanded",
          Directory true
            [("bar", Directory true [("inner.zip", File true archive1)])])])].

End Samples.

(* ================================================================= *)
(** ** The program *)

Section Downcan.

(** [http.DetectContentType] of [net/http]. *)
Variable DetectContentType : list byte -> string.

(** The members [archive/zip] finds in the bytes of a file, or the error of
    [zip.OpenReader] when they are not an archive. *)
Variable zipDecode : list byte -> result (list ZipFile).

(** [flags.Parse(&opts)] of [go-flags] on the command line. *)
Variable flags_Parse : list string -> Options * option error.

(** [setLogLevel] and [setupLogger] are functions of the package that are
    defined outside [downcan.go]; [Execute] only looks at their error. *)
Variable setLogLevel : Options -> Options * option error.
Variable setupLogger : Options -> option error.

(** [zip.OpenReader]. *)
Definition zip_OpenReader (path : string) : M (result (list ZipFile)) :=
  fun w =>
    let r := match Open (fs w) path with
             | Ok (FileHandle data _) => zipDecode data
             | Ok DirHandle => Err EISDIR
             | Err e => Err e
             end in
    Returned r (emit (ZipOpenReader path) w).

(** [file.Open()] on a member of the archive. *)
Definition zip_File_Open (file : ZipFile)
  : M (result (list byte * option error)) :=
  fun w =>
    let r := match payload file with
             | OpenFails e => Err e
             | Stream data end_ => Ok (data, end_)
             end in
    Returned r (emit (ZipFileOpen (Name file)) w).

(** [parseFlags], lines 45-48. *)
Definition parseFlags (args : list string) : Options * option error :=
  flags_Parse args.

(** [getFileContentType], lines 118-137. *)
Definition getFileContentType (filePath : string) : M (string * option error) :=
  r <- os_Open filePath ;;
  match r with
  | Err err => ret ("", Some (Errorf ("error opening " ++ filePath) err))
  | Ok file =>
      let buffer := repeat x00 512 in
      let '(buffer, _, err, file) := Read file buffer in
      match err with
      | Some err => ret ("", Some (Errorf ("error reading " ++ filePath) err))
      | None =>
          let '(err, file) := SeekStart file in
          match err with
          | Some err =>
              ret ("", Some (Errorf ("error seeking " ++ filePath) err))
          | None => ret (DetectContentType buffer, None)
          end
      end
  end.

(** The callback [findZipFiles] gives to [filepath.Walk], lines 91-110; the
    captured variable is [zipFiles]. *)
Definition visit : WalkFunc (list string) :=
  fun path info err zipFiles =>
    match err with
    | Some err => ret (zipFiles, Some (Errorf ("error walking " ++ path) err))
    | None =>
        match info with
        | None => liftGo (Panic "nil pointer dereference")
        | Some info =>
            if IsDir info then ret (zipFiles, None)
            else
              '(contentType, err) <- getFileContentType path ;;
              match err with
              | Some err =>
                  slog LevelError "error getting content type"
                    [("path", AString path); ("error", AError err)]
              | None => ret tt
              end ;;
              let zipFiles :=
                if String.eqb contentType "application/zip"
                then zipFiles ++ [path]
                else zipFiles in
              ret (zipFiles, None)
        end
    end.

(** [findZipFiles], lines 88-116. *)
Definition findZipFiles (directory : string) : M (list string * option error) :=
  '(zipFiles, err) <- Walk directory visit [] ;;
  match err with
  | Some err => ret ([], Some (Errorf ("error walking " ++ directory) err))
  | None => ret (zipFiles, None)
  end.

(** The body of the loop of [extractZipFile], lines 146-175. *)
Definition extractEntry (zipFilePath destDir : string) (file : ZipFile)
  : M (option error) :=
  let target := Join [destDir; Name file] in
  if entryIsDir file then
    err <- os_MkdirAll target ;;
    match err with
    | Some err => ret (Some (Errorf ("error creating directory " ++ target) err))
    | None => ret None
    end
  else
    r <- zip_File_Open file ;;
    match r with
    | Err err => ret (Some (Errorf ("error opening " ++ Name file) err))
    | Ok (data, end_) =>
        err <- os_Create target ;;
        match err with
        | Some err => ret (Some (Errorf ("error creating " ++ target) err))
        | None =>
            err <- io_Copy target data end_ ;;
            match err with
            | Some err => ret (Some (Errorf ("error copying " ++ target) err))
            | None =>
                slog LevelDebug "extracted file"
                  [("zip", AString zipFilePath); ("file", AString target)] ;;
                ret None
            end
        end
    end.

(** [extractZipFile], lines 139-178. *)
Definition extractZipFile (zipFilePath destDir : string) : M (option error) :=
  r <- zip_OpenReader zipFilePath ;;
  match r with
  | Err err => ret (Some (Errorf ("error opening " ++ zipFilePath) err))
  | Ok files => forRangeErr files (extractEntry zipFilePath destDir)
  end.

(** The body of the loop of [run], lines 64-83. *)
Definition expandArchive (zipFile : string) : M unit :=
  destDir <- liftGo (getExpandedPath zipFile) ;;
  st <- os_Stat destDir ;;
  match st with
  | Ok _ =>
      slog LevelInfo "skipping expanding since target exists"
        [("zip", AString zipFile); ("destDir", AString destDir)]
  | Err _ =>
      err <- os_MkdirAll destDir ;;
      match err with
      | Some err =>
          slog LevelError "error creating directory"
            [("destDir", AString destDir); ("error", AError err)]
      | None =>
          err <- extractZipFile zipFile destDir ;;
          match err with
          | Some err =>
              slog LevelError "error extracting"
                [("zipFile", AString zipFile); ("error", AError err)]
          | None => ret tt
          end
      end
  end.

(** [run], lines 50-86; the global [opts] is its argument. *)
Definition run (opts : Options) : M (option error) :=
  slog LevelInfo "starting" [("opts", AOpts opts)] ;;
  if String.eqb (DataDirectory opts) "" then
    ret (Some (ErrorNew
                 "please provide a data directory using the --data-dir flag"))
  else
    '(zipFiles, err) <- findZipFiles (DataDirectory opts) ;;
    match err with
    | Some err => ret (Some (Errorf "error finding zip files" err))
    | None =>
        slog LevelDebug "found zip files"
          [("count", AInt (Z.of_nat (List.length zipFiles)));
           ("files", AStrings zipFiles)] ;;
        forRange zipFiles expandArchive ;;
        ret None
    end.

(** [Execute], lines 22-43, on the command line [args]. *)
Definition Execute (args : list string) : M Z :=
  let '(opts, err) := parseFlags args in
  match err with
  | Some _ => ret 1%Z
  | None =>
      let '(opts, err) := setLogLevel opts in
      match err with
      | Some err =>
          slog LevelError "error setting log level" [("error", AError err)] ;;
          ret 1%Z
      | None =>
          match setupLogger opts with
          | Some err =>
              slog LevelError "error setting up logger"
                [("error", AError err)] ;;
              ret 1%Z
          | None =>
              err <- run opts ;;
              match err with
              | Some err =>
                  slog LevelError "run failed" [("error", AError err)] ;;
                  ret 1%Z
              | None => ret 0%Z
              end
          end
      end
  end.

(* ================================================================= *)
(** ** Vocabulary of the properties *)

(** [present n elems]: the path [elems] names a node of the tree [n]. *)
Definition present (n : node) (elems : list string) : Prop :=
  exists m, lookup n elems = Ok m.

(** [grows n n']: every path that names a node of [n] names one of [n']:
    nothing was removed. *)
Definition grows (n n' : node) : Prop :=
  forall elems, present n elems -> present n' elems.

Definition worldOf {A : Type} (o : Outcome A) : World :=
  match o with
  | Returned _ w => w
  | Panicked _ w => w
  end.

(** The events of an extraction: creating directories, opening an archive
    or a member, creating and filling files. *)
Definition extractionEvent (e : Event) : bool :=
  match e with
  | OsMkdirAll _ | ZipOpenReader _ | ZipFileOpen _ | OsCreate _ | IoCopy _ =>
      true
  | _ => false
  end.

(** [quiet w w']: from [w] to [w'] the file tree did not change and no
    event of an extraction was added to the trace. *)
Definition quiet (w w' : World) : Prop :=
  fs w' = fs w /\
  exists t, trace w' = trace w ++ t /\ existsb extractionEvent t = false.

(** [extends w w']: from [w] to [w'] nothing was removed from the file tree
    and the trace only got longer. *)
Definition extends (w w' : World) : Prop :=
  grows (fs w) (fs w') /\ exists t, trace w' = trace w ++ t.

(** [returning m R]: from every world [m] returns (it does not panic), in
    a world related to the first by [R]. *)
Definition returning {A : Type} (m : M A) (R : World -> World -> Prop)
  : Prop :=
  forall w, exists a w', m w = Returned a w' /\ R w w'.

(** The 512-byte buffer of [getFileContentType] after the read of a file
    holding [data]: the first bytes of the file, at most 512, and behind
    them the zero bytes the buffer was made with. *)
Definition sniffBuffer (data : list byte) : list byte :=
  firstn 512 data ++ repeat x00 (512 - List.length data).

(** What [getFileContentType] returns for [filePath] in the tree [t]. *)
Definition sniff (t : node) (filePath : string) : string * option error :=
  match Open t filePath with
  | Err e => ("", Some (Errorf ("error opening " ++ filePath) e))
  | Ok DirHandle => ("", Some (Errorf ("error reading " ++ filePath) EISDIR))
  | Ok (FileHandle [] _) =>
      ("", Some (Errorf ("error reading " ++ filePath) EOF))
  | Ok (FileHandle data _) => (DetectContentType (sniffBuffer data), None)
  end.

(** The test of the scanner on what the sniffer returned. *)
Definition isZip (sniffed : string * option error) : bool :=
  String.eqb (fst sniffed) "application/zip".

(** The record the scanner logs when the sniffer returned an error. *)
Definition sniffLog (path : string) (sniffed : string * option error)
  : list Event :=
  match snd sniffed with
  | Some err =>
      [Slog LevelError "error getting content type"
         [("path", AString path); ("error", AError err)]]
  | None => []
  end.

Definition addTrace (t : list Event) (w : World) : World :=
  {| fs := fs w; trace := trace w ++ t |}.

(** Every directory of the tree can be listed. *)
Fixpoint listableAll (n : node) : bool :=
  match n with
  | File _ _ => true
  | Directory l es => l && forallb (fun e => listableAll (snd e)) es
  end.

(** The regular files of the tree [n] walked as [path], by the names the
    walk gives them and in its order. *)
Fixpoint filePaths (path : string) (n : node) : list string :=
  match n with
  | File _ _ => [path]
  | Directory _ es =>
      flat_map (fun e => filePaths (Join [path; fst e]) (snd e)) es
  end.

(** The regular files under [path] that the sniffer takes for archives. *)
Definition zipPaths (t : node) (path : string) (n : node) : list string :=
  filter (fun p => isZip (sniff t p)) (filePaths path n).

(** What the walk of a tree with the callback of the scanner does. *)
Definition walk_spec (n : node) : Prop :=
  forall path zipFiles w,
  exists zipFiles' r w',
    walk visit path n zipFiles w = Returned (zipFiles', r) w'
    /\ quiet w w'
    /\ (listableAll n = true ->
        r = None /\ zipFiles' = zipFiles ++ zipPaths (fs w) path n)
    /\ (listableAll n = false ->
        exists p e, r = Some (Errorf ("error walking " ++ p) e)).

(** The record the orchestrator logs when it skips an archive. *)
Definition skipLog (zipFile destDir : string) : Event :=
  Slog LevelInfo "skipping expanding since target exists"
    [("zip", AString zipFile); ("destDir", AString destDir)].

(** The first record of [run]. *)
Definition startLog (opts : Options) : Event :=
  Slog LevelInfo "starting" [("opts", AOpts opts)].

(** The message of the panic of a slice out of bounds. *)
Definition sliceBounds : string := "slice bounds out of range".

(** The record [run] logs after a scan that succeeded. *)
Definition foundLog (zipFiles : list string) : Event :=
  Slog LevelDebug "found zip files"
    [("count", AInt (Z.of_nat (List.length zipFiles)));
     ("files", AStrings zipFiles)].

(** The record the orchestrator logs when an extraction failed. *)
Definition extractLog (zipFile : string) (err : error) : Event :=
  Slog LevelError "error extracting"
    [("zipFile", AString zipFile); ("error", AError err)].

(** [afterRuns w w']: the world [w'] is [w] after any number of further
    runs of the program, with any options, however each of them ended. *)
Inductive afterRuns : World -> World -> Prop :=
| afterRuns_now (w : World) : afterRuns w w
| afterRuns_run (w : World) (opts : Options) (w' : World) :
    afterRuns (worldOf (run opts w)) w' -> afterRuns w w'.

(** The check of a destination. *)
Definition isStat (e : Event) : bool :=
  match e with
  | OsStat _ => true
  | _ => false
  end.

(** [unchecked w w']: from [w] to [w'] the trace got longer and no check
    of a destination was added to it. *)
Definition unchecked (w w' : World) : Prop :=
  exists t, trace w' = trace w ++ t /\ existsb isStat t = false.

(** The destination of an archive, when the resolver returns one. *)
Definition destinationOf (zipFile : string) : string :=
  match getExpandedPath zipFile with
  | Value d => d
  | Panic _ => ""
  end.

(** The elements of the path the extractor writes a member to. *)
Definition targetOf (destDir : string) (file : ZipFile) : list string :=
  elements (Join [destDir; Name file]).

(** What [zip.OpenReader] returns for [path] in the tree [t]. *)
Definition membersOf (t : node) (path : string) : result (list ZipFile) :=
  match Open t path with
  | Ok (FileHandle data _) => zipDecode data
  | Ok DirHandle => Err EISDIR
  | Err e => Err e
  end.

(** [keepsKinds n n']: every path that names a node of [n] names a node of
    the same kind in [n']: no directory or file was removed, none became
    the other. *)
Definition keepsKinds (n n' : node) : Prop :=
  forall q m,
    lookup n q = Ok m ->
    exists m', lookup n' q = Ok m' /\ IsDir (infoOf m') = IsDir (infoOf m).

(** [reaches n n']: the tree [n'] is [n] after some creations of
    directories and some writes of files that succeeded. *)
Inductive reaches : node -> node -> Prop :=
| reaches_here (n : node) : reaches n n
| reaches_mkdir (n n1 n' : node) (p : list string) :
    mkdirAll n p = Ok n1 -> reaches n1 n' -> reaches n n'
| reaches_write (n n1 n' : node) (p : list string) (data : list byte) :
    writeFile n p data = Ok n1 -> reaches n1 n' -> reaches n n'.

(** [changes w w']: the tree of [w'] is reached from the tree of [w]. *)
Definition changes (w w' : World) : Prop := reaches (fs w) (fs w').

(** The events of reading an archive and of writing files. *)
Definition unpackEvent (e : Event) : bool :=
  match e with
  | ZipOpenReader _ | ZipFileOpen _ | OsCreate _ | IoCopy _ => true
  | _ => false
  end.

(** An [Open], the call the sniffer makes. *)
Definition isOpen (e : Event) : bool :=
  match e with
  | OsOpen _ => true
  | _ => false
  end.

(** The calls and records of the scan of the tree [n] walked as [path]:
    for every regular file, in the order of the walk, the [Open] of the
    sniffer and, when the sniffer failed, the record of its error. *)
Fixpoint scanEvents (t : node) (path : string) (n : node) : list Event :=
  match n with
  | File _ _ => OsOpen path :: sniffLog path (sniff t path)
  | Directory _ es =>
      flat_map (fun e => scanEvents t (Join [path; fst e]) (snd e)) es
  end.

(** The record the orchestrator logs when it cannot create a destination. *)
Definition mkdirLog (destDir : string) (err : error) : Event :=
  Slog LevelError "error creating directory"
    [("destDir", AString destDir); ("error", AError err)].

(** The opening of the archive [zipFile] by [zip.OpenReader], the first
    step of its extraction. *)
Definition opensArchive (zipFile : string) (e : Event) : bool :=
  match e with
  | ZipOpenReader path => String.eqb path zipFile
  | _ => false
  end.

(** [notOpened zipFile w w']: from [w] to [w'] the trace got longer and no
    opening of the archive [zipFile] was added to it. *)
Definition notOpened (zipFile : string) (w w' : World) : Prop :=
  exists t,
    trace w' = trace w ++ t /\ existsb (opensArchive zipFile) t = false.

(** [reachedAt opts w z wk]: the run with [opts] started in [w] has a data
    directory, its scan succeeds, and [wk] is the world in which its loop
    takes the archive [z]: the archives before [z] in the list of the scan
    were handled, in order, and the body of the loop returned for each. *)
Definition reachedAt (opts : Options) (w : World) (z : string) (wk : World)
  : Prop :=
  DataDirectory opts <> ""
  /\ exists pre post w1,
       findZipFiles (DataDirectory opts) (emit (startLog opts) w)
         = Returned (pre ++ z :: post, None) w1
       /\ forRange pre expandArchive (emit (foundLog (pre ++ z :: post)) w1)
          = Returned tt wk.

(** The events the run added to the trace from [w] to [w']. *)
Definition added (w w' : World) : list Event :=
  skipn (List.length (trace w)) (trace w').

(* ================================================================= *)
(** ** Go strings: slicing *)

Lemma string_length_append (a b : string) :
  String.length (a ++ b) = String.length a + String.length b.
Proof.
  induction a as [|c a IH]; simpl; [reflexivity | now rewrite IH].
Qed.

Lemma substring_all (a : string) :
  substring 0 (String.length a) a = a.
Proof.
  induction a as [|c a IH]; simpl; [reflexivity | now rewrite IH].
Qed.

Lemma substring_head (a b : string) :
  substring 0 (String.length a) (a ++ b) = a.
Proof.
  induction a as [|c a IH]; simpl.
  - destruct b; reflexivity.
  - now rewrite IH.
Qed.

(** Cutting the last four bytes off [stem ++ suffix] when the suffix has
    four bytes gives [stem]. *)
Lemma sliceTo_drop4 (stem suffix : string) :
  String.length suffix = 4 ->
  sliceTo (stem ++ suffix) (len (stem ++ suffix) - 4) = Value stem.
Proof.
  intros Hs. unfold sliceTo, len.
  rewrite string_length_append, Hs.
  replace (Z.of_nat (String.length stem + 4) - 4)%Z
    with (Z.of_nat (String.length stem)) by lia.
  rewrite Nat2Z.id.
  destruct (Z.ltb_spec (Z.of_nat (String.length stem)) 0); [lia|].
  destruct (Z.ltb_spec (Z.of_nat (String.length stem + 4))
              (Z.of_nat (String.length stem))); [lia|].
  simpl. now rewrite substring_head.
Qed.

(** A string of fewer than four bytes cannot be cut four bytes short. *)
Lemma sliceTo_short (s : string) :
  String.length s < 4 ->
  sliceTo s (len s - 4) = Panic "slice bounds out of range".
Proof.
  intros Hs. unfold sliceTo, len.
  destruct (Z.ltb_spec (Z.of_nat (String.length s) - 4) 0); [reflexivity|lia].
Qed.

Lemma sliceTo_long (s : string) :
  4 <= String.length s ->
  sliceTo s (len s - 4) = Value (substring 0 (String.length s - 4) s).
Proof.
  intros Hs. unfold sliceTo, len.
  destruct (Z.ltb_spec (Z.of_nat (String.length s) - 4) 0); [lia|].
  destruct (Z.ltb_spec (Z.of_nat (String.length s))
              (Z.of_nat (String.length s) - 4)); [lia|].
  simpl. do 2 f_equal. lia.
Qed.

(** The only panic of the resolver is the slice. *)
Lemma getExpandedPath_cases (p : string) :
  (4 <= String.length (Base p) /\
   getExpandedPath p =
     Value (Join [Dir p; "expanded";
                  substring 0 (String.length (Base p) - 4) (Base p)]))
  \/ (String.length (Base p) < 4 /\
      getExpandedPath p = Panic "slice bounds out of range").
Proof.
  unfold getExpandedPath.
  destruct (Nat.lt_ge_cases (String.length (Base p)) 4) as [Hlt|Hge].
  - right. split; [exact Hlt|]. now rewrite sliceTo_short.
  - left. split; [exact Hge|]. now rewrite sliceTo_long.
Qed.

(* ================================================================= *)
(** ** The file tree: lookups after updates *)

Lemma assoc_put_same (k : string) (v : node) (es : list (string * node)) :
  assoc k (put k v es) = Some v.
Proof.
  induction es as [|[k' v'] es IH]; simpl.
  - now rewrite String.eqb_refl.
  - destruct (String.eqb k' k) eqn:E; simpl.
    + now rewrite String.eqb_refl.
    + destruct (String.ltb k k'); simpl.
      * now rewrite String.eqb_refl.
      * now rewrite E.
Qed.

Lemma assoc_put_other (k k' : string) (v : node) (es : list (string * node)) :
  k <> k' -> assoc k' (put k v es) = assoc k' es.
Proof.
  intros Hne. induction es as [|[k0 v0] es IH]; simpl.
  - apply String.eqb_neq in Hne. now rewrite Hne.
  - destruct (String.eqb k0 k) eqn:E; simpl.
    + apply String.eqb_eq in E. subst k0.
      apply String.eqb_neq in Hne. now rewrite Hne.
    + destruct (String.ltb k k0); simpl.
      * apply String.eqb_neq in Hne. now rewrite Hne.
      * now rewrite IH.
Qed.

Lemma grows_refl (n : node) : grows n n.
Proof. intros elems H. exact H. Qed.

Lemma grows_trans (a b c : node) : grows a b -> grows b c -> grows a c.
Proof. intros Hab Hbc elems H. apply Hbc, Hab, H. Qed.

(** Replacing the entry [e] of a directory by a tree that grew, or adding
    it, removes nothing. *)
Lemma grows_put (l : bool) (es : list (string * node)) (e : string)
  (child' : node) :
  (forall child, assoc e es = Some child -> grows child child') ->
  grows (Directory l es) (Directory l (put e child' es)).
Proof.
  intros Hchild elems [m Hm]. destruct elems as [|x rest].
  - eexists. reflexivity.
  - simpl in Hm. unfold present. simpl.
    destruct (String.eqb_spec e x) as [->|Hne].
    + rewrite assoc_put_same.
      destruct (assoc x es) as [c|] eqn:Ec; [|discriminate].
      apply (Hchild c eq_refl). now exists m.
    + rewrite (assoc_put_other e x child' es Hne).
      destruct (assoc x es) as [c|]; [|discriminate].
      now exists m.
Qed.

Lemma mkdirAll_grows (elems : list string) :
  forall n n', mkdirAll n elems = Ok n' -> grows n n'.
Proof.
  induction elems as [|e rest IH]; intros n n' H.
  - destruct n; simpl in H; [discriminate|]. injection H as <-.
    apply grows_refl.
  - destruct n as [|l es]; simpl in H; [discriminate|].
    destruct (mkdirAll _ rest) as [child'|] eqn:Hrec; [|discriminate].
    injection H as <-.
    apply grows_put. intros child Hc. rewrite Hc in Hrec.
    now apply (IH child).
Qed.

(** After a successful [MkdirAll] the path names a directory. *)
Lemma mkdirAll_is_dir (elems : list string) :
  forall n n', mkdirAll n elems = Ok n' ->
  exists l es, lookup n' elems = Ok (Directory l es).
Proof.
  induction elems as [|e rest IH]; intros n n' H.
  - destruct n as [|l es]; simpl in H; [discriminate|]. injection H as <-.
    now exists l, es.
  - destruct n as [|l es]; simpl in H; [discriminate|].
    destruct (mkdirAll _ rest) as [child'|] eqn:Hrec; [|discriminate].
    injection H as <-. simpl. rewrite assoc_put_same.
    now apply IH in Hrec.
Qed.

Lemma writeFile_grows (elems : list string) (data : list byte) :
  forall n n', writeFile n elems data = Ok n' -> grows n n'.
Proof.
  induction elems as [|e rest IH]; intros n n' H.
  - destruct n; simpl in H; discriminate.
  - destruct n as [|l es]; simpl in H; [discriminate|].
    destruct rest as [|e2 rest].
    + destruct (assoc e es) as [[[|] d|l' es']|] eqn:Ea;
        try discriminate; injection H as <-;
        apply grows_put; intros child Hc; rewrite Ea in Hc;
        try discriminate; injection Hc as <-;
        intros elems [m Hm]; destruct elems; simpl in Hm;
        try discriminate; eexists; reflexivity.
    + destruct (assoc e es) as [child|] eqn:Ea; [|discriminate].
      destruct (writeFile child (e2 :: rest) data) as [child'|] eqn:Hrec;
        [|discriminate].
      injection H as <-.
      apply grows_put. intros c Hc. rewrite Ea in Hc. injection Hc as <-.
      now apply IH.
Qed.

(** Writing below a directory that exists: the file then holds the data. *)
Lemma writeFile_stores (parent : list string) (name : string)
  (data : list byte) :
  forall n l es,
    lookup n parent = Ok (Directory l es) ->
    (assoc name es = None \/ exists old, assoc name es = Some (File true old)) ->
    exists n', writeFile n (parent ++ [name]) data = Ok n'
               /\ lookup n' (parent ++ [name]) = Ok (File true data).
Proof.
  induction parent as [|e rest IH]; intros n l es Hp Hfree.
  - simpl in Hp. injection Hp as ->. simpl.
    destruct Hfree as [Hn|[old Ho]].
    + rewrite Hn. eexists. split; [reflexivity|].
      simpl. now rewrite assoc_put_same.
    + rewrite Ho. eexists. split; [reflexivity|].
      simpl. now rewrite assoc_put_same.
  - destruct n as [|l0 es0]; simpl in Hp; [discriminate|].
    destruct (assoc e es0) as [child|] eqn:Ea; [|discriminate].
    destruct (IH child l es Hp Hfree) as [child' [Hw Hl]].
    change ((e :: rest) ++ [name]) with (e :: (rest ++ [name])).
    simpl. destruct (rest ++ [name]) as [|y ys] eqn:Eapp.
    + destruct rest; discriminate.
    + rewrite Ea, Hw. eexists. split; [reflexivity|].
      simpl. rewrite assoc_put_same. exact Hl.
Qed.

(** Writing below a path that names nothing, or a regular file, fails with
    the error of the lookup, and there is no tree to go on with. *)
Lemma writeFile_no_parent (parent : list string) (name : string)
  (data : list byte) :
  forall n err,
    lookup n parent = Err err ->
    writeFile n (parent ++ [name]) data = Err err.
Proof.
  induction parent as [|e rest IH]; intros n err Hp.
  - discriminate.
  - destruct n as [|l0 es0]; simpl in Hp.
    + injection Hp as <-. reflexivity.
    + change ((e :: rest) ++ [name]) with (e :: (rest ++ [name])).
      simpl. destruct (rest ++ [name]) as [|y ys] eqn:Eapp.
      * destruct rest; discriminate.
      * destruct (assoc e es0) as [child|] eqn:Ea.
        -- now rewrite (IH child err Hp).
        -- exact Hp.
Qed.

(* ================================================================= *)
(** ** What a computation leaves behind *)

Lemma quiet_refl (w : World) : quiet w w.
Proof.
  split; [reflexivity|]. exists []. now rewrite app_nil_r.
Qed.

Lemma quiet_trans (a b c : World) : quiet a b -> quiet b c -> quiet a c.
Proof.
  intros [Hf1 [t1 [Ht1 Hq1]]] [Hf2 [t2 [Ht2 Hq2]]]. split.
  - congruence.
  - exists (t1 ++ t2). split.
    + now rewrite Ht2, Ht1, app_assoc.
    + rewrite existsb_app, Hq1, Hq2. reflexivity.
Qed.

Lemma extends_refl (w : World) : extends w w.
Proof.
  split; [apply grows_refl|]. exists []. now rewrite app_nil_r.
Qed.

Lemma extends_trans (a b c : World) :
  extends a b -> extends b c -> extends a c.
Proof.
  intros [Hg1 [t1 Ht1]] [Hg2 [t2 Ht2]]. split.
  - eapply grows_trans; eassumption.
  - exists (t1 ++ t2). now rewrite Ht2, Ht1, app_assoc.
Qed.

Lemma quiet_extends (w w' : World) : quiet w w' -> extends w w'.
Proof.
  intros [Hf [t [Ht _]]]. split.
  - rewrite Hf. apply grows_refl.
  - now exists t.
Qed.

Lemma quiet_emit (e : Event) (w : World) :
  extractionEvent e = false -> quiet w (emit e w).
Proof.
  intros He. split; [reflexivity|]. exists [e]. split; [reflexivity|].
  simpl. now rewrite He.
Qed.

Lemma extends_emit (e : Event) (w : World) : extends w (emit e w).
Proof.
  split; [apply grows_refl|]. now exists [e].
Qed.

Lemma extends_emit_setFs (e : Event) (n : node) (w : World) :
  grows (fs w) n -> extends w (setFs n (emit e w)).
Proof.
  intros Hg. split; [exact Hg|]. now exists [e].
Qed.

Lemma returning_ret {A : Type} (a : A) (R : World -> World -> Prop) :
  (forall w, R w w) -> returning (ret a) R.
Proof.
  intros Hrefl w. exists a, w. split; [reflexivity | apply Hrefl].
Qed.

Lemma returning_bind {A B : Type} (m : M A) (k : A -> M B)
  (R : World -> World -> Prop) :
  (forall a b c, R a b -> R b c -> R a c) ->
  returning m R -> (forall a, returning (k a) R) -> returning (bind m k) R.
Proof.
  intros Htrans Hm Hk w.
  destruct (Hm w) as [a [w1 [E1 R1]]].
  destruct (Hk a w1) as [b [w2 [E2 R2]]].
  exists b, w2. unfold bind. rewrite E1. split; [exact E2|].
  eapply Htrans; eassumption.
Qed.

Lemma returning_weaken {A : Type} (m : M A) (R R' : World -> World -> Prop) :
  (forall w w', R w w' -> R' w w') -> returning m R -> returning m R'.
Proof.
  intros Himp Hm w. destruct (Hm w) as [a [w' [E HR]]].
  exists a, w'. split; [exact E | now apply Himp].
Qed.

Lemma slog_quiet (level : Level) (msg : string)
  (attrs : list (string * attr)) :
  returning (slog level msg attrs) quiet.
Proof.
  intros w. exists tt, (emit (Slog level msg attrs) w).
  split; [reflexivity | now apply quiet_emit].
Qed.

Lemma os_Stat_quiet (path : string) : returning (os_Stat path) quiet.
Proof.
  intros w. eexists _, _. split; [reflexivity | now apply quiet_emit].
Qed.

Lemma os_Open_quiet (path : string) : returning (os_Open path) quiet.
Proof.
  intros w. eexists _, _. split; [reflexivity | now apply quiet_emit].
Qed.

Lemma os_MkdirAll_extends (path : string) :
  returning (os_MkdirAll path) extends.
Proof.
  intros w. unfold os_MkdirAll.
  destruct (MkdirAll (fs w) path) as [fs'|e] eqn:E.
  - eexists _, _. split; [reflexivity|].
    apply extends_emit_setFs. eapply mkdirAll_grows. exact E.
  - eexists _, _. split; [reflexivity | apply extends_emit].
Qed.

Lemma os_Create_extends (path : string) : returning (os_Create path) extends.
Proof.
  intros w. unfold os_Create.
  destruct (Create (fs w) path) as [fs'|e] eqn:E.
  - eexists _, _. split; [reflexivity|].
    apply extends_emit_setFs. eapply writeFile_grows. exact E.
  - eexists _, _. split; [reflexivity | apply extends_emit].
Qed.

Lemma io_Copy_extends (path : string) (data : list byte)
  (end_ : option error) :
  returning (io_Copy path data end_) extends.
Proof.
  intros w. unfold io_Copy.
  destruct (writeFile (fs w) (elements path) data) as [fs'|e] eqn:E.
  - eexists _, _. split; [reflexivity|].
    apply extends_emit_setFs. eapply writeFile_grows. exact E.
  - eexists _, _. split; [reflexivity | apply extends_emit].
Qed.

Lemma zip_OpenReader_extends (path : string) :
  returning (zip_OpenReader path) extends.
Proof.
  intros w. eexists _, _. split; [reflexivity | apply extends_emit].
Qed.

Lemma zip_File_Open_extends (file : ZipFile) :
  returning (zip_File_Open file) extends.
Proof.
  intros w. eexists _, _. split; [reflexivity | apply extends_emit].
Qed.

Lemma forRangeErr_extends {A : Type} (xs : list A)
  (body : A -> M (option error)) :
  (forall x, returning (body x) extends) ->
  returning (forRangeErr xs body) extends.
Proof.
  intros Hbody. induction xs as [|x rest IH]; simpl.
  - apply returning_ret, extends_refl.
  - apply returning_bind; [apply extends_trans | apply Hbody |].
    intros [e|]; [apply returning_ret, extends_refl | exact IH].
Qed.

(* ================================================================= *)
(** ** The content sniffer *)

Lemma skipn_repeat {A : Type} (a : A) (n m : nat) :
  skipn n (repeat a m) = repeat a (m - n).
Proof.
  revert m. induction n as [|n IH]; intros m.
  - now rewrite Nat.sub_0_r.
  - destruct m as [|m]; simpl; [reflexivity | apply IH].
Qed.

(** The first read of a file that is not empty into a buffer that is not
    empty. *)
Lemma Read_start (data buffer : list byte) :
  data <> [] -> buffer <> [] ->
  Read (FileHandle data 0) buffer =
    (firstn (List.length buffer) data
       ++ skipn (List.length (firstn (List.length buffer) data)) buffer,
     List.length (firstn (List.length buffer) data), None,
     FileHandle data (List.length (firstn (List.length buffer) data))).
Proof.
  intros Hd Hb. unfold Read. rewrite skipn_O.
  destruct data as [|d ds]; [contradiction|].
  destruct buffer as [|b bs]; [contradiction|].
  reflexivity.
Qed.

Lemma Read_empty (offset : nat) (buffer : list byte) :
  buffer <> [] ->
  Read (FileHandle [] offset) buffer =
    (buffer, 0, Some EOF, FileHandle [] offset).
Proof.
  intros Hb. unfold Read. rewrite skipn_nil.
  destruct buffer; [contradiction | reflexivity].
Qed.

Lemma fresh_buffer_not_empty : repeat x00 512 <> [].
Proof.
  intro H. apply (f_equal (@List.length byte)) in H.
  rewrite repeat_length in H. discriminate.
Qed.

Lemma Read_fresh (data : list byte) :
  data <> [] ->
  exists n h, Read (FileHandle data 0) (repeat x00 512)
              = (sniffBuffer data, n, None, h).
Proof.
  intros Hd. rewrite (Read_start _ _ Hd fresh_buffer_not_empty).
  rewrite repeat_length, skipn_repeat, length_firstn.
  eexists _, _. unfold sniffBuffer.
  replace (512 - Nat.min 512 (List.length data))
    with (512 - List.length data) by lia.
  reflexivity.
Qed.

(** The sniffer never panics, changes nothing, makes one call, and returns
    [sniff]. *)
Lemma getFileContentType_eq (filePath : string) (w : World) :
  getFileContentType filePath w =
    Returned (sniff (fs w) filePath) (emit (OsOpen filePath) w).
Proof.
  unfold getFileContentType, bind, os_Open, sniff.
  destruct (Open (fs w) filePath) as [[data offset|]|e] eqn:EO;
    [| reflexivity | reflexivity].
  assert (offset = 0) as ->.
  { unfold Open in EO. destruct (lookup (fs w) (elements filePath)) as [[[|] d|]|];
      try discriminate. now injection EO. }
  destruct data as [|d ds].
  - now rewrite (Read_empty 0 _ fresh_buffer_not_empty).
  - destruct (Read_fresh (d :: ds)) as [n [h ->]]; [discriminate|].
    destruct h; reflexivity.
Qed.

(* ================================================================= *)
(** ** The scanner *)

(** Induction on file trees: a directory has the property when all its
    entries have it. *)
Lemma node_ind2 (P : node -> Prop) :
  (forall a d, P (File a d)) ->
  (forall l es, Forall (fun e => P (snd e)) es -> P (Directory l es)) ->
  forall n, P n.
Proof.
  intros HF HD. fix IH 1. intros [a d|l es].
  - apply HF.
  - apply HD. induction es as [|[k v] es IHes]; constructor.
    + apply IH.
    + exact IHes.
Qed.

Lemma addTrace_quiet (t : list Event) (w : World) :
  existsb extractionEvent t = false -> quiet w (addTrace t w).
Proof.
  intros Ht. split; [reflexivity|]. now exists t.
Qed.

(** The callback on a regular file: one [Open], a log record when the
    sniffer failed, the path appended when the sniffer said ZIP, and the
    walk goes on. *)
Lemma visit_file (path : string) (zipFiles : list string) (w : World) :
  visit path (Some {| IsDir := false |}) None zipFiles w =
    Returned
      ((if isZip (sniff (fs w) path) then zipFiles ++ [path] else zipFiles),
       None)
      (addTrace (OsOpen path :: sniffLog path (sniff (fs w) path)) w).
Proof.
  unfold visit, bind. simpl. rewrite getFileContentType_eq.
  change (fs (emit (OsOpen path) w)) with (fs w).
  unfold isZip, sniffLog.
  destruct (sniff (fs w) path) as [ct [e|]]; simpl;
    unfold ret, slog, emit, addTrace; simpl; rewrite <- ?app_assoc;
    reflexivity.
Qed.

Lemma visit_dir (path : string) (zipFiles : list string) (w : World) :
  visit path (Some {| IsDir := true |}) None zipFiles w =
    Returned (zipFiles, None) w.
Proof. reflexivity. Qed.

Lemma visit_err (path : string) (info : option FileInfo) (e : error)
  (zipFiles : list string) (w : World) :
  visit path info (Some e) zipFiles w =
    Returned (zipFiles, Some (Errorf ("error walking " ++ path) e)) w.
Proof. reflexivity. Qed.

Lemma sniffLog_quiet (path : string) (sniffed : string * option error) :
  existsb extractionEvent (OsOpen path :: sniffLog path sniffed) = false.
Proof.
  unfold sniffLog. destruct (snd sniffed); reflexivity.
Qed.

Lemma walkNames_visit (path : string) (es : list (string * node)) :
  Forall (fun e => walk_spec (snd e)) es ->
  forall zipFiles w,
  exists zipFiles' r w',
    walkNames (walk visit) path es zipFiles w = Returned (zipFiles', r) w'
    /\ quiet w w'
    /\ (forallb (fun e => listableAll (snd e)) es = true ->
        r = None /\
        zipFiles' = zipFiles ++ zipPaths (fs w) path (Directory true es))
    /\ (forallb (fun e => listableAll (snd e)) es = false ->
        exists p e, r = Some (Errorf ("error walking " ++ p) e)).
Proof.
  induction 1 as [|[name child] es Hchild _ IH]; intros zipFiles w.
  - exists zipFiles, None, w. repeat split.
    + apply quiet_refl.
    + unfold zipPaths. simpl. now rewrite app_nil_r.
    + discriminate.
  - simpl in Hchild.
    destruct (Hchild (Join [path; name]) zipFiles w)
      as [zs1 [r1 [w1 [E1 [Q1 [Hall Hblk]]]]]].
    cbn [walkNames]. unfold bind at 1. rewrite E1.
    cbn [forallb snd].
    destruct (listableAll child) eqn:EL.
    + destruct (Hall eq_refl) as [-> ->].
      destruct (IH (zipFiles ++ zipPaths (fs w) (Join [path; name]) child) w1)
        as [zs2 [r2 [w2 [E2 [Q2 [Hall2 Hblk2]]]]]].
      exists zs2, r2, w2. split; [exact E2|].
      split; [eapply quiet_trans; eassumption|].
      rewrite andb_true_l. split.
      * intros Hes. destruct (Hall2 Hes) as [-> ->]. split; [reflexivity|].
        destruct Q1 as [Hfs _]. rewrite Hfs.
        unfold zipPaths. cbn [filePaths flat_map fst snd].
        now rewrite filter_app, app_assoc.
      * exact Hblk2.
    + destruct (Hblk eq_refl) as [p [e ->]].
      rewrite andb_false_r.
      exists zs1, (Some (Errorf ("error walking " ++ p) e)), w1.
      split; [reflexivity|]. split; [exact Q1|]. split.
      * discriminate.
      * intros _. now exists p, e.
Qed.

Lemma walk_visit (n : node) : walk_spec n.
Proof.
  induction n as [a d|l es IH] using node_ind2; intros path zipFiles w.
  - cbn [walk infoOf]. rewrite visit_file.
    eexists _, _, _. split; [reflexivity|].
    split; [apply addTrace_quiet, sniffLog_quiet|]. split.
    + intros _. split; [reflexivity|]. unfold zipPaths. cbn [filePaths filter].
      destruct (isZip (sniff (fs w) path)); [reflexivity|].
      now rewrite app_nil_r.
    + discriminate.
  - cbn [walk infoOf]. destruct l.
    + unfold bind at 1. rewrite visit_dir. cbn [isSome orb].
      destruct (walkNames_visit path es IH zipFiles w)
        as [zs' [r [w' [E [Q [Hall Hblk]]]]]].
      exists zs', r, w'. split; [exact E|]. split; [exact Q|].
      cbn [listableAll]. rewrite andb_true_l. split; assumption.
    + unfold bind at 1. rewrite visit_err. cbn [isSome orb].
      eexists _, _, _. split; [reflexivity|].
      split; [apply quiet_refl|]. split.
      * discriminate.
      * intros _. now exists path, EACCES.
Qed.

Lemma findZipFiles_missing (directory : string) (w : World) (e : error) :
  lookup (fs w) (elements directory) = Err e ->
  findZipFiles directory w =
    Returned ([], Some (Errorf ("error walking " ++ directory)
                          (Errorf ("error walking " ++ directory) e)))
             (emit (FilepathWalk directory) w).
Proof.
  intros Hl. unfold findZipFiles, Walk, bind. rewrite Hl.
  rewrite visit_err. reflexivity.
Qed.

Lemma findZipFiles_complete (directory : string) (w : World) (n : node) :
  lookup (fs w) (elements directory) = Ok n ->
  listableAll n = true ->
  exists w', findZipFiles directory w =
               Returned (zipPaths (fs w) directory n, None) w'
             /\ quiet w w'.
Proof.
  intros Hl Hall. unfold findZipFiles, Walk, bind. rewrite Hl.
  destruct (walk_visit n directory [] (emit (FilepathWalk directory) w))
    as [zs [r [w' [E [Q [Hok _]]]]]].
  rewrite E. destruct (Hok Hall) as [-> ->]. simpl.
  exists w'. split; [reflexivity|].
  eapply quiet_trans; [|exact Q]. now apply quiet_emit.
Qed.

Lemma findZipFiles_blocked (directory : string) (w : World) (n : node) :
  lookup (fs w) (elements directory) = Ok n ->
  listableAll n = false ->
  exists p e w',
    findZipFiles directory w =
      Returned ([], Some (Errorf ("error walking " ++ directory)
                            (Errorf ("error walking " ++ p) e))) w'
    /\ quiet w w'.
Proof.
  intros Hl Hall. unfold findZipFiles, Walk, bind. rewrite Hl.
  destruct (walk_visit n directory [] (emit (FilepathWalk directory) w))
    as [zs [r [w' [E [Q [_ Hblk]]]]]].
  rewrite E. destruct (Hblk Hall) as [p [e ->]]. simpl.
  exists p, e, w'. split; [reflexivity|].
  eapply quiet_trans; [|exact Q]. now apply quiet_emit.
Qed.

(** The scan never panics, changes nothing and extracts nothing. *)
Lemma findZipFiles_quiet (directory : string) :
  returning (findZipFiles directory) quiet.
Proof.
  intros w. destruct (lookup (fs w) (elements directory)) as [n|e] eqn:Hl.
  - destruct (listableAll n) eqn:Hall.
    + destruct (findZipFiles_complete directory w n Hl Hall) as [w' [E Q]].
      eexists _, _. split; eassumption.
    + destruct (findZipFiles_blocked directory w n Hl Hall)
        as [p [e [w' [E Q]]]].
      eexists _, _. split; eassumption.
  - rewrite (findZipFiles_missing directory w e Hl).
    eexists _, _. split; [reflexivity | now apply quiet_emit].
Qed.

(* ================================================================= *)
(** ** The extractor and the orchestrator never remove anything *)

Lemma extractEntry_extends (zipFilePath destDir : string) (file : ZipFile) :
  returning (extractEntry zipFilePath destDir file) extends.
Proof.
  unfold extractEntry. destruct (entryIsDir file).
  - apply returning_bind; [apply extends_trans | apply os_MkdirAll_extends |].
    intros [e|]; apply returning_ret, extends_refl.
  - apply returning_bind;
      [apply extends_trans | apply zip_File_Open_extends |].
    intros [[data end_]|e]; [|apply returning_ret, extends_refl].
    apply returning_bind; [apply extends_trans | apply os_Create_extends |].
    intros [e|]; [apply returning_ret, extends_refl|].
    apply returning_bind; [apply extends_trans | apply io_Copy_extends |].
    intros [e|]; [apply returning_ret, extends_refl|].
    apply returning_bind; [apply extends_trans | |].
    + eapply returning_weaken; [apply quiet_extends | apply slog_quiet].
    + intros _. apply returning_ret, extends_refl.
Qed.

Lemma extractZipFile_extends (zipFilePath destDir : string) :
  returning (extractZipFile zipFilePath destDir) extends.
Proof.
  unfold extractZipFile.
  apply returning_bind;
    [apply extends_trans | apply zip_OpenReader_extends |].
  intros [files|e]; [|apply returning_ret, extends_refl].
  apply forRangeErr_extends. intros file. apply extractEntry_extends.
Qed.

Lemma slog_extends (level : Level) (msg : string)
  (attrs : list (string * attr)) :
  returning (slog level msg attrs) extends.
Proof.
  eapply returning_weaken; [apply quiet_extends | apply slog_quiet].
Qed.

(** When the resolver returns, the body of the loop of [run] returns. *)
Lemma expandArchive_returns (zipFile destDir : string) :
  getExpandedPath zipFile = Value destDir ->
  returning (expandArchive zipFile) extends.
Proof.
  intros Hd. unfold expandArchive. rewrite Hd.
  apply returning_bind; [apply extends_trans | |].
  { intros w. exists destDir, w. split; [reflexivity | apply extends_refl]. }
  intros d.
  apply returning_bind; [apply extends_trans | |].
  { eapply returning_weaken; [apply quiet_extends | apply os_Stat_quiet]. }
  intros [info|e]; [apply slog_extends|].
  apply returning_bind; [apply extends_trans | apply os_MkdirAll_extends |].
  intros [e1|]; [apply slog_extends|].
  apply returning_bind;
    [apply extends_trans | apply extractZipFile_extends |].
  intros [e2|]; [apply slog_extends | apply returning_ret, extends_refl].
Qed.

(** When the resolver panics, the body of the loop panics at once. *)
Lemma expandArchive_panics (zipFile msg : string) (w : World) :
  getExpandedPath zipFile = Panic msg ->
  expandArchive zipFile w = Panicked msg w.
Proof.
  intros Hd. unfold expandArchive, bind, liftGo. now rewrite Hd.
Qed.

(** The destination is there: the archive is skipped. *)
Lemma expandArchive_skips (zipFile destDir : string) (info : FileInfo)
  (w : World) :
  getExpandedPath zipFile = Value destDir ->
  Stat (fs w) destDir = Ok info ->
  expandArchive zipFile w =
    Returned tt (addTrace [OsStat destDir; skipLog zipFile destDir] w).
Proof.
  intros Hd Hs. unfold expandArchive, bind, liftGo, os_Stat. rewrite Hd, Hs.
  unfold slog, emit, addTrace, skipLog. simpl. now rewrite <- app_assoc.
Qed.

(** Whatever happens to an archive, nothing is removed from the tree. *)
Lemma expandArchive_extends (zipFile : string) (w : World) :
  extends w (worldOf (expandArchive zipFile w)).
Proof.
  destruct (getExpandedPath zipFile) as [d|msg] eqn:Hd.
  - destruct (expandArchive_returns zipFile d Hd w) as [a [w' [E X]]].
    now rewrite E.
  - rewrite (expandArchive_panics zipFile msg w Hd). apply extends_refl.
Qed.

Lemma forRange_extends (zipFiles : list string) (w : World) :
  extends w (worldOf (forRange zipFiles expandArchive w)).
Proof.
  revert w. induction zipFiles as [|z rest IH]; intros w; simpl.
  - apply extends_refl.
  - unfold bind. pose proof (expandArchive_extends z w) as X.
    destruct (expandArchive z w) as [[] w1|msg w1]; simpl in X.
    + eapply extends_trans; [exact X | apply IH].
    + exact X.
Qed.

(** The loop of [run] returns when the resolver returns for every archive
    of the list. *)
Lemma forRange_returns (zipFiles : list string) :
  (forall z, In z zipFiles -> 4 <= String.length (Base z)) ->
  returning (forRange zipFiles expandArchive) extends.
Proof.
  induction zipFiles as [|z rest IH]; intros Hlong; simpl.
  - apply returning_ret, extends_refl.
  - apply returning_bind; [apply extends_trans | |].
    + destruct (getExpandedPath_cases z) as [[_ Hv]|[Hlt _]].
      * eapply expandArchive_returns. exact Hv.
      * specialize (Hlong z (or_introl eq_refl)). lia.
    + intros _. apply IH. intros z' Hin. apply Hlong. now right.
Qed.

(** The loop of [run] panics when the resolver panics for some archive of
    the list. *)
Lemma forRange_panics (zipFiles : list string) (p : string) :
  In p zipFiles -> String.length (Base p) < 4 ->
  forall w, exists w',
    forRange zipFiles expandArchive w = Panicked sliceBounds w'
    /\ extends w w'.
Proof.
  intros Hin Hshort. induction zipFiles as [|z rest IH]; [contradiction|].
  intros w. simpl. unfold bind.
  destruct (getExpandedPath_cases z) as [[_ Hv]|[_ Hp]].
  - destruct (expandArchive_returns z _ Hv w) as [[] [w1 [E X]]].
    rewrite E. destruct Hin as [->|Hin].
    + destruct (getExpandedPath_cases p) as [[Hge _]|[_ Hp]]; [lia|].
      rewrite Hp in Hv. discriminate.
    + destruct (IH Hin w1) as [w' [E' X']].
      exists w'. split; [exact E' | eapply extends_trans; eassumption].
  - rewrite (expandArchive_panics z _ w Hp).
    exists w. split; [reflexivity | apply extends_refl].
Qed.

(* ================================================================= *)
(** ** [run], step by step *)

Lemma run_no_directory (opts : Options) (w : World) :
  DataDirectory opts = "" ->
  run opts w =
    Returned
      (Some (ErrorNew
               "please provide a data directory using the --data-dir flag"))
      (emit (startLog opts) w).
Proof.
  intros Hd. unfold run, bind, slog. rewrite Hd. reflexivity.
Qed.

Lemma run_scan_failed (opts : Options) (w w1 : World)
  (zipFiles : list string) (err : error) :
  DataDirectory opts <> "" ->
  findZipFiles (DataDirectory opts) (emit (startLog opts) w)
    = Returned (zipFiles, Some err) w1 ->
  run opts w = Returned (Some (Errorf "error finding zip files" err)) w1.
Proof.
  intros Hd Hscan. unfold run, bind, slog.
  apply String.eqb_neq in Hd. rewrite Hd.
  fold (startLog opts). now rewrite Hscan.
Qed.

Lemma run_scan_ok (opts : Options) (w w1 : World) (zipFiles : list string) :
  DataDirectory opts <> "" ->
  findZipFiles (DataDirectory opts) (emit (startLog opts) w)
    = Returned (zipFiles, None) w1 ->
  run opts w =
    match forRange zipFiles expandArchive (emit (foundLog zipFiles) w1) with
    | Returned _ w' => Returned None w'
    | Panicked msg w' => Panicked msg w'
    end.
Proof.
  intros Hd Hscan. unfold run, bind, slog.
  apply String.eqb_neq in Hd. rewrite Hd.
  fold (startLog opts). rewrite Hscan. fold (foundLog zipFiles).
  destruct (forRange zipFiles expandArchive (emit (foundLog zipFiles) w1));
    reflexivity.
Qed.

(** However a run ends, it removes nothing from the tree. *)
Lemma run_extends (opts : Options) (w : World) :
  extends w (worldOf (run opts w)).
Proof.
  destruct (String.eqb_spec (DataDirectory opts) "") as [Hd|Hd].
  - rewrite (run_no_directory opts w Hd). apply extends_emit.
  - destruct (findZipFiles_quiet (DataDirectory opts)
                (emit (startLog opts) w)) as [[zs [err|]] [w1 [E Q]]].
    + rewrite (run_scan_failed opts w w1 zs err Hd E). simpl.
      eapply extends_trans; [apply (extends_emit (startLog opts))|].
      apply quiet_extends. exact Q.
    + rewrite (run_scan_ok opts w w1 zs Hd E).
      pose proof (forRange_extends zs (emit (foundLog zs) w1)) as X.
      assert (extends w (emit (foundLog zs) w1)) as X0.
      { eapply extends_trans; [apply (extends_emit (startLog opts))|].
        eapply extends_trans; [apply quiet_extends, Q | apply extends_emit]. }
      destruct (forRange zs expandArchive (emit (foundLog zs) w1));
        simpl in *; eapply extends_trans; eassumption.
Qed.

Lemma afterRuns_extends (w w' : World) : afterRuns w w' -> extends w w'.
Proof.
  induction 1 as [w|w opts w' _ IH].
  - apply extends_refl.
  - eapply extends_trans; [apply run_extends | exact IH].
Qed.

(** When the scan succeeds and every archive it found has a base name of
    four bytes or more, the run returns [nil]. *)
Lemma run_returns_nil (opts : Options) (w w1 : World)
  (zipFiles : list string) :
  DataDirectory opts <> "" ->
  findZipFiles (DataDirectory opts) (emit (startLog opts) w)
    = Returned (zipFiles, None) w1 ->
  (forall z, In z zipFiles -> 4 <= String.length (Base z)) ->
  exists w', run opts w = Returned None w'.
Proof.
  intros Hd Hscan Hlong. rewrite (run_scan_ok opts w w1 zipFiles Hd Hscan).
  destruct (forRange_returns zipFiles Hlong (emit (foundLog zipFiles) w1))
    as [[] [w' [E _]]].
  rewrite E. now exists w'.
Qed.

(** The loop of [run] over archives whose destinations are all there: every
    one is skipped, the tree is as it was and nothing was extracted. *)
Lemma forRange_all_present (zipFiles : list string) :
  forall w,
    (forall z, In z zipFiles ->
       exists d info, getExpandedPath z = Value d
                      /\ Stat (fs w) d = Ok info) ->
    exists w', forRange zipFiles expandArchive w = Returned tt w'
               /\ quiet w w'.
Proof.
  induction zipFiles as [|z rest IH]; intros w Hall; simpl.
  - exists w. split; [reflexivity | apply quiet_refl].
  - destruct (Hall z (or_introl eq_refl)) as [d [info [Hd Hs]]].
    unfold bind. rewrite (expandArchive_skips z d info w Hd Hs).
    destruct (IH (addTrace [OsStat d; skipLog z d] w)) as [w' [E Q]].
    + intros z' Hin. apply Hall. now right.
    + exists w'. split; [exact E|].
      eapply quiet_trans; [|exact Q]. now apply addTrace_quiet.
Qed.

(* ================================================================= *)
(** ** The order in which [run] takes the archives *)

Lemma unchecked_refl (w : World) : unchecked w w.
Proof. exists []. now rewrite app_nil_r. Qed.

Lemma unchecked_trans (a b c : World) :
  unchecked a b -> unchecked b c -> unchecked a c.
Proof.
  intros [t1 [Ht1 Hq1]] [t2 [Ht2 Hq2]]. exists (t1 ++ t2). split.
  - now rewrite Ht2, Ht1, app_assoc.
  - rewrite existsb_app, Hq1, Hq2. reflexivity.
Qed.

Lemma unchecked_emit (e : Event) (w : World) :
  isStat e = false -> unchecked w (emit e w).
Proof.
  intros He. exists [e]. split; [reflexivity|]. simpl. now rewrite He.
Qed.

Lemma unchecked_emit_setFs (e : Event) (n : node) (w : World) :
  isStat e = false -> unchecked w (setFs n (emit e w)).
Proof.
  intros He. exists [e]. split; [reflexivity|]. simpl. now rewrite He.
Qed.

Lemma os_MkdirAll_unchecked (path : string) :
  returning (os_MkdirAll path) unchecked.
Proof.
  intros w. unfold os_MkdirAll. destruct (MkdirAll (fs w) path);
    eexists _, _; (split; [reflexivity|]);
    [now apply unchecked_emit_setFs | now apply unchecked_emit].
Qed.

Lemma os_Create_unchecked (path : string) :
  returning (os_Create path) unchecked.
Proof.
  intros w. unfold os_Create. destruct (Create (fs w) path);
    eexists _, _; (split; [reflexivity|]);
    [now apply unchecked_emit_setFs | now apply unchecked_emit].
Qed.

Lemma io_Copy_unchecked (path : string) (data : list byte)
  (end_ : option error) :
  returning (io_Copy path data end_) unchecked.
Proof.
  intros w. unfold io_Copy.
  destruct (writeFile (fs w) (elements path) data);
    eexists _, _; (split; [reflexivity|]);
    [now apply unchecked_emit_setFs | now apply unchecked_emit].
Qed.

Lemma slog_unchecked (level : Level) (msg : string)
  (attrs : list (string * attr)) :
  returning (slog level msg attrs) unchecked.
Proof.
  intros w. eexists _, _. split; [reflexivity | now apply unchecked_emit].
Qed.

Lemma extractEntry_unchecked (zipFilePath destDir : string) (file : ZipFile) :
  returning (extractEntry zipFilePath destDir file) unchecked.
Proof.
  unfold extractEntry. destruct (entryIsDir file).
  - apply returning_bind;
      [apply unchecked_trans | apply os_MkdirAll_unchecked |].
    intros [e|]; apply returning_ret, unchecked_refl.
  - apply returning_bind; [apply unchecked_trans | |].
    { intros w. eexists _, _.
      split; [reflexivity | now apply unchecked_emit]. }
    intros [[data end_]|e]; [|apply returning_ret, unchecked_refl].
    apply returning_bind;
      [apply unchecked_trans | apply os_Create_unchecked |].
    intros [e|]; [apply returning_ret, unchecked_refl|].
    apply returning_bind;
      [apply unchecked_trans | apply io_Copy_unchecked |].
    intros [e|]; [apply returning_ret, unchecked_refl|].
    apply returning_bind; [apply unchecked_trans | apply slog_unchecked |].
    intros _. apply returning_ret, unchecked_refl.
Qed.

Lemma extractZipFile_unchecked (zipFilePath destDir : string) :
  returning (extractZipFile zipFilePath destDir) unchecked.
Proof.
  unfold extractZipFile. apply returning_bind; [apply unchecked_trans | |].
  { intros w. eexists _, _.
    split; [reflexivity | now apply unchecked_emit]. }
  intros [files|e]; [|apply returning_ret, unchecked_refl].
  induction files as [|file rest IH]; simpl.
  - apply returning_ret, unchecked_refl.
  - apply returning_bind;
      [apply unchecked_trans | apply extractEntry_unchecked |].
    intros [e|]; [apply returning_ret, unchecked_refl | exact IH].
Qed.

(** The body of the loop checks the destination of its archive, once and
    before anything else. *)
Lemma expandArchive_checks_once (zipFile destDir : string) (w : World) :
  getExpandedPath zipFile = Value destDir ->
  exists w',
    expandArchive zipFile w = Returned tt w'
    /\ unchecked (emit (OsStat destDir) w) w'.
Proof.
  intros Hd. unfold expandArchive, bind, liftGo, os_Stat. rewrite Hd.
  destruct (Stat (fs w) destDir) as [info|e0].
  - eexists. split; [reflexivity | now apply unchecked_emit].
  - destruct (os_MkdirAll_unchecked destDir (emit (OsStat destDir) w))
      as [[e1|] [w1 [E1 U1]]]; rewrite E1.
    + eexists. split; [reflexivity|].
      eapply unchecked_trans; [exact U1 | now apply unchecked_emit].
    + destruct (extractZipFile_unchecked zipFile destDir w1)
        as [[e2|] [w2 [E2 U2]]]; rewrite E2.
      * eexists. split; [reflexivity|].
        eapply unchecked_trans; [exact U1|].
        eapply unchecked_trans; [exact U2 | now apply unchecked_emit].
      * eexists. split; [reflexivity|].
        eapply unchecked_trans; eassumption.
Qed.

Lemma filter_isStat_unchecked (w w' : World) :
  unchecked w w' ->
  filter isStat (trace w') = filter isStat (trace w).
Proof.
  intros [t [-> Ht]]. rewrite filter_app.
  assert (filter isStat t = []) as ->; [|apply app_nil_r].
  induction t as [|e t IH]; [reflexivity|].
  simpl in Ht. apply orb_false_iff in Ht. destruct Ht as [He Ht].
  simpl. rewrite He. now apply IH.
Qed.

(** When the resolver returns for every archive of the list, the loop of
    [run] returns, and the destinations it checked are those of the
    archives of the list, each once and in the order of the list: every
    archive is taken, whatever happened to the ones before it. *)
Lemma forRange_takes_all_in_order (zipFiles : list string) :
  (forall z, In z zipFiles -> 4 <= String.length (Base z)) ->
  forall w, exists w',
    forRange zipFiles expandArchive w = Returned tt w'
    /\ filter isStat (trace w')
       = filter isStat (trace w)
           ++ map (fun z => OsStat (destinationOf z)) zipFiles.
Proof.
  induction zipFiles as [|z rest IH]; intros Hlong w; simpl.
  - exists w. split; [reflexivity | now rewrite app_nil_r].
  - destruct (getExpandedPath_cases z) as [[_ Hv]|[Hlt _]].
    2:{ specialize (Hlong z (or_introl eq_refl)). lia. }
    destruct (expandArchive_checks_once z _ w Hv) as [w1 [E1 U1]].
    unfold bind. rewrite E1.
    destruct (IH (fun z' H => Hlong z' (or_intror H)) w1) as [w' [E' F']].
    exists w'. split; [exact E'|].
    rewrite F', (filter_isStat_unchecked _ _ U1).
    unfold emit. cbn [trace]. rewrite filter_app. cbn [filter isStat].
    unfold destinationOf at 2. rewrite Hv. now rewrite <- app_assoc.
Qed.

(** With the command line parsed and the logger set up, a scan that
    succeeds and finds only archives whose base names have four bytes or
    more makes [Execute] return 0, every archive taken in order, whatever
    the creation of a directory or an extraction returned. *)
Lemma Execute_returns_zero (args : list string) (opts0 opts : Options)
  (w w1 : World) (zipFiles : list string) :
  parseFlags args = (opts0, None) ->
  setLogLevel opts0 = (opts, None) ->
  setupLogger opts = None ->
  DataDirectory opts <> "" ->
  findZipFiles (DataDirectory opts) (emit (startLog opts) w)
    = Returned (zipFiles, None) w1 ->
  (forall z, In z zipFiles -> 4 <= String.length (Base z)) ->
  exists w',
    Execute args w = Returned 0%Z w'
    /\ run opts w = Returned None w'
    /\ filter isStat (trace w')
       = filter isStat (trace w1)
           ++ map (fun z => OsStat (destinationOf z)) zipFiles.
Proof.
  intros Hp Hl Hg Hd Hscan Hlong.
  destruct (forRange_takes_all_in_order zipFiles Hlong
              (emit (foundLog zipFiles) w1)) as [w' [E F]].
  assert (Hrun : run opts w = Returned None w').
  { rewrite (run_scan_ok opts w w1 zipFiles Hd Hscan). now rewrite E. }
  exists w'. split; [|split; [exact Hrun|]].
  - unfold Execute, bind. rewrite Hp, Hl, Hg, Hrun. reflexivity.
  - rewrite F. unfold emit. cbn [trace]. rewrite filter_app.
    cbn [filter foundLog isStat]. now rewrite app_nil_r.
Qed.

(** Splitting the lookup of a path at its last element. *)
Lemma lookup_last (parent : list string) (name : string) :
  forall n m,
    lookup n (parent ++ [name]) = Ok m ->
    exists l es, lookup n parent = Ok (Directory l es)
                 /\ assoc name es = Some m.
Proof.
  induction parent as [|e rest IH]; intros n m H.
  - simpl in H. destruct n as [|l es]; [discriminate|].
    destruct (assoc name es) as [c|] eqn:Ea; [|discriminate].
    simpl in H. injection H as ->. now exists l, es.
  - change ((e :: rest) ++ [name]) with (e :: (rest ++ [name])) in H.
    simpl in H. destruct n as [|l es]; [discriminate|].
    simpl. destruct (assoc e es) as [c|]; [|discriminate].
    now apply IH.
Qed.

(* ================================================================= *)
(** ** An archive whose destination is there is not opened *)

Lemma notOpened_refl (zipFile : string) (w : World) : notOpened zipFile w w.
Proof. exists []. now rewrite app_nil_r. Qed.

Lemma notOpened_trans (zipFile : string) (a b c : World) :
  notOpened zipFile a b -> notOpened zipFile b c -> notOpened zipFile a c.
Proof.
  intros [t1 [Ht1 Hq1]] [t2 [Ht2 Hq2]]. exists (t1 ++ t2). split.
  - now rewrite Ht2, Ht1, app_assoc.
  - rewrite existsb_app, Hq1, Hq2. reflexivity.
Qed.

Lemma notOpened_emit (zipFile : string) (e : Event) (w : World) :
  opensArchive zipFile e = false -> notOpened zipFile w (emit e w).
Proof.
  intros He. exists [e]. split; [reflexivity|]. simpl. now rewrite He.
Qed.

Lemma notOpened_emit_setFs (zipFile : string) (e : Event) (n : node)
  (w : World) :
  opensArchive zipFile e = false -> notOpened zipFile w (setFs n (emit e w)).
Proof.
  intros He. exists [e]. split; [reflexivity|]. simpl. now rewrite He.
Qed.

(** What is not an event of an extraction is not the opening of an
    archive. *)
Lemma quiet_notOpened (zipFile : string) (w w' : World) :
  quiet w w' -> notOpened zipFile w w'.
Proof.
  intros [_ [t [Ht Hq]]]. exists t. split; [exact Ht|]. clear Ht.
  induction t as [|e t IH]; [reflexivity|].
  simpl in Hq. apply orb_false_iff in Hq. destruct Hq as [He Hq].
  simpl. rewrite (IH Hq), orb_false_r.
  destruct e; try reflexivity; discriminate.
Qed.

Lemma os_MkdirAll_notOpened (zipFile path : string) :
  returning (os_MkdirAll path) (notOpened zipFile).
Proof.
  intros w. unfold os_MkdirAll. destruct (MkdirAll (fs w) path);
    eexists _, _; (split; [reflexivity|]);
    [now apply notOpened_emit_setFs | now apply notOpened_emit].
Qed.

Lemma os_Create_notOpened (zipFile path : string) :
  returning (os_Create path) (notOpened zipFile).
Proof.
  intros w. unfold os_Create. destruct (Create (fs w) path);
    eexists _, _; (split; [reflexivity|]);
    [now apply notOpened_emit_setFs | now apply notOpened_emit].
Qed.

Lemma io_Copy_notOpened (zipFile path : string) (data : list byte)
  (end_ : option error) :
  returning (io_Copy path data end_) (notOpened zipFile).
Proof.
  intros w. unfold io_Copy.
  destruct (writeFile (fs w) (elements path) data);
    eexists _, _; (split; [reflexivity|]);
    [now apply notOpened_emit_setFs | now apply notOpened_emit].
Qed.

Lemma slog_notOpened (zipFile : string) (level : Level) (msg : string)
  (attrs : list (string * attr)) :
  returning (slog level msg attrs) (notOpened zipFile).
Proof.
  intros w. eexists _, _. split; [reflexivity | now apply notOpened_emit].
Qed.

(** The extraction of a member opens no archive. *)
Lemma extractEntry_notOpened (zipFile zipFilePath destDir : string)
  (file : ZipFile) :
  returning (extractEntry zipFilePath destDir file) (notOpened zipFile).
Proof.
  unfold extractEntry. destruct (entryIsDir file).
  - apply returning_bind;
      [apply notOpened_trans | apply os_MkdirAll_notOpened |].
    intros [e|]; apply returning_ret, notOpened_refl.
  - apply returning_bind; [apply notOpened_trans | |].
    { intros w. eexists _, _.
      split; [reflexivity | now apply notOpened_emit]. }
    intros [[data end_]|e]; [|apply returning_ret, notOpened_refl].
    apply returning_bind;
      [apply notOpened_trans | apply os_Create_notOpened |].
    intros [e|]; [apply returning_ret, notOpened_refl|].
    apply returning_bind;
      [apply notOpened_trans | apply io_Copy_notOpened |].
    intros [e|]; [apply returning_ret, notOpened_refl|].
    apply returning_bind; [apply notOpened_trans | apply slog_notOpened |].
    intros _. apply returning_ret, notOpened_refl.
Qed.

(** The extraction of an archive opens that archive and no other. *)
Lemma extractZipFile_notOpened (zipFile zipFilePath destDir : string) :
  zipFilePath <> zipFile ->
  returning (extractZipFile zipFilePath destDir) (notOpened zipFile).
Proof.
  intros Hne. unfold extractZipFile.
  apply returning_bind; [apply notOpened_trans | |].
  { intros w. eexists _, _. split; [reflexivity|].
    apply notOpened_emit. simpl. now apply String.eqb_neq. }
  intros [files|e]; [|apply returning_ret, notOpened_refl].
  induction files as [|file rest IH]; simpl.
  - apply returning_ret, notOpened_refl.
  - apply returning_bind;
      [apply notOpened_trans | apply extractEntry_notOpened |].
    intros [e|]; [apply returning_ret, notOpened_refl | exact IH].
Qed.

(** While the destination of [zipFile] is there, the body of the loop of
    [run] does not open [zipFile], whatever archive it is handling. *)
Lemma expandArchive_notOpened (zipFile destDir z : string) (w : World) :
  getExpandedPath zipFile = Value destDir ->
  present (fs w) (elements destDir) ->
  notOpened zipFile w (worldOf (expandArchive z w)).
Proof.
  intros Hd [m Hl].
  assert (Hs : Stat (fs w) destDir = Ok (infoOf m))
    by (unfold Stat; now rewrite Hl).
  destruct (String.eqb_spec z zipFile) as [->|Hne].
  - rewrite (expandArchive_skips zipFile destDir (infoOf m) w Hd Hs).
    exists [OsStat destDir; skipLog zipFile destDir]. now split.
  - destruct (getExpandedPath z) as [d|msg] eqn:Hz.
    2:{ rewrite (expandArchive_panics z msg w Hz). apply notOpened_refl. }
    assert (N0 : notOpened zipFile w (emit (OsStat d) w))
      by now apply notOpened_emit.
    unfold expandArchive, bind, liftGo, os_Stat. rewrite Hz.
    destruct (Stat (fs w) d) as [info|e0].
    + eapply notOpened_trans; [exact N0 | now apply notOpened_emit].
    + destruct (os_MkdirAll_notOpened zipFile d (emit (OsStat d) w))
        as [[e1|] [w1 [E1 N1]]]; rewrite E1.
      * eapply notOpened_trans; [exact N0|].
        eapply notOpened_trans; [exact N1 | now apply notOpened_emit].
      * destruct (extractZipFile_notOpened zipFile z d Hne w1)
          as [[e2|] [w2 [E2 N2]]]; rewrite E2.
        -- eapply notOpened_trans; [exact N0|].
           eapply notOpened_trans; [exact N1|].
           eapply notOpened_trans; [exact N2 | now apply notOpened_emit].
        -- eapply notOpened_trans; [exact N0|].
           eapply notOpened_trans; eassumption.
Qed.

Lemma forRange_notOpened (zipFile destDir : string)
  (zipFiles : list string) :
  getExpandedPath zipFile = Value destDir ->
  forall w,
    present (fs w) (elements destDir) ->
    notOpened zipFile w (worldOf (forRange zipFiles expandArchive w)).
Proof.
  intros Hd. induction zipFiles as [|z rest IH]; intros w Hp; simpl.
  - apply notOpened_refl.
  - unfold bind.
    pose proof (expandArchive_notOpened zipFile destDir z w Hd Hp) as N.
    pose proof (expandArchive_extends z w) as X.
    destruct (expandArchive z w) as [[] w1|msg w1]; simpl in N, X.
    + eapply notOpened_trans; [exact N|]. apply IH.
      destruct X as [Hg _]. now apply Hg.
    + exact N.
Qed.

(** A run started while the destination of [zipFile] is there does not
    open [zipFile], however it ends and whatever else it extracts. *)
Lemma run_notOpened (zipFile destDir : string) (opts : Options)
  (w : World) :
  getExpandedPath zipFile = Value destDir ->
  present (fs w) (elements destDir) ->
  notOpened zipFile w (worldOf (run opts w)).
Proof.
  intros Hv Hp.
  assert (N0 : notOpened zipFile w (emit (startLog opts) w))
    by now apply notOpened_emit.
  destruct (String.eqb_spec (DataDirectory opts) "") as [Hd|Hd].
  - rewrite (run_no_directory opts w Hd). exact N0.
  - destruct (findZipFiles_quiet (DataDirectory opts)
                (emit (startLog opts) w)) as [[zs [err|]] [w1 [E Q]]].
    + rewrite (run_scan_failed opts w w1 zs err Hd E). simpl.
      eapply notOpened_trans; [exact N0 | now apply quiet_notOpened].
    + rewrite (run_scan_ok opts w w1 zs Hd E).
      assert (Hp1 : present (fs (emit (foundLog zs) w1)) (elements destDir)).
      { destruct Q as [Hfs _]. cbn [fs emit] in *. now rewrite Hfs. }
      pose proof (forRange_notOpened zipFile destDir zs Hv
                    (emit (foundLog zs) w1) Hp1) as N.
      assert (N1 : notOpened zipFile w (emit (foundLog zs) w1)).
      { eapply notOpened_trans; [exact N0|].
        eapply notOpened_trans;
          [apply quiet_notOpened, Q | now apply notOpened_emit]. }
      destruct (forRange zs expandArchive (emit (foundLog zs) w1));
        simpl in *; eapply notOpened_trans; eassumption.
Qed.

(** Up to the point where the loop of a run takes an archive, nothing was
    removed from the tree. *)
Lemma reachedAt_extends (opts : Options) (w : World) (z : string)
  (wk : World) :
  reachedAt opts w z wk -> extends w wk.
Proof.
  intros [_ [pre [post [w1 [Hscan Hloop]]]]].
  destruct (findZipFiles_quiet (DataDirectory opts)
              (emit (startLog opts) w)) as [a [w1' [E Q]]].
  rewrite Hscan in E. injection E as _ <-.
  pose proof (forRange_extends pre (emit (foundLog (pre ++ z :: post)) w1))
    as X.
  rewrite Hloop in X. simpl in X.
  eapply extends_trans; [apply (extends_emit (startLog opts))|].
  eapply extends_trans; [apply quiet_extends, Q|].
  eapply extends_trans; [apply extends_emit | exact X].
Qed.

(** A run started while the destination of [zipFile] is there: the run does
    not open [zipFile], and where its loop takes [zipFile] the check finds
    the destination and the archive is skipped. *)
Lemma run_skips_present (zipFile destDir : string) (w : World) :
  getExpandedPath zipFile = Value destDir ->
  present (fs w) (elements destDir) ->
  forall opts,
    notOpened zipFile w (worldOf (run opts w))
    /\ forall wk,
         reachedAt opts w zipFile wk ->
         expandArchive zipFile wk
         = Returned tt
             (addTrace [OsStat destDir; skipLog zipFile destDir] wk).
Proof.
  intros Hv Hp opts. split; [now apply (run_notOpened zipFile destDir)|].
  intros wk Hr. apply reachedAt_extends in Hr. destruct Hr as [Hg _].
  destruct (Hg _ Hp) as [m Hl].
  apply (expandArchive_skips zipFile destDir (infoOf m) wk Hv).
  unfold Stat. now rewrite Hl.
Qed.

(* ================================================================= *)
(** ** The destination resolver *)

(** C5: for an archive path whose base name is [stem ++ ".zip"], the
    destination resolver, a function of the path alone, returns exactly the
    join of the parent directory of the path, the name ["expanded"] and
    [stem], the base name without its [".zip"]. *)
Theorem getExpandedPath_of_zip_name (zipFilePath stem : string) :
  Base zipFilePath = (stem ++ ".zip")%string ->
  getExpandedPath zipFilePath
    = Value (Join [Dir zipFilePath; "expanded"; stem]).
Proof.
  intros Hbase. unfold getExpandedPath. rewrite Hbase.
  now rewrite (sliceTo_drop4 stem ".zip" eq_refl).
Qed.

(** C8: the destination resolver is not total.  For a path whose base name
    has fewer than four bytes it panics with a slice out of bounds, and a
    run whose scan found such a path among the archives panics as well: the
    path is not handled as an archive that failed. *)
Theorem short_base_name_panics (zipFilePath : string) :
  String.length (Base zipFilePath) < 4 ->
  getExpandedPath zipFilePath = Panic sliceBounds
  /\ forall opts w zipFiles w1,
       DataDirectory opts <> "" ->
       findZipFiles (DataDirectory opts) (emit (startLog opts) w)
         = Returned (zipFiles, None) w1 ->
       In zipFilePath zipFiles ->
       exists w', run opts w = Panicked sliceBounds w'.
Proof.
  intros Hshort. split.
  - destruct (getExpandedPath_cases zipFilePath) as [[Hge _]|[_ Hp]];
      [lia | exact Hp].
  - intros opts w zipFiles w1 Hd Hscan Hin.
    rewrite (run_scan_ok opts w w1 zipFiles Hd Hscan).
    destruct (forRange_panics zipFiles zipFilePath Hin Hshort
                (emit (foundLog zipFiles) w1)) as [w' [E _]].
    rewrite E. now exists w'.
Qed.

(* ================================================================= *)
(** ** Skipping what is already there *)


(** C9: the check before an extraction takes any object at the destination
    path for an earlier extraction.  Whatever node the destination path
    names, a directory or a regular file, the orchestrator skips the
    archive: it creates no directory and starts no extraction. *)
Theorem any_existing_object_is_skipped (zipFile destDir : string)
  (object : node) (w : World) :
  getExpandedPath zipFile = Value destDir ->
  lookup (fs w) (elements destDir) = Ok object ->
  expandArchive zipFile w
    = Returned tt (addTrace [OsStat destDir; skipLog zipFile destDir] w)
  /\ existsb extractionEvent [OsStat destDir; skipLog zipFile destDir]
     = false.
Proof.
  intros Hd Hl. split; [|reflexivity].
  apply (expandArchive_skips zipFile destDir (infoOf object) w Hd).
  unfold Stat. now rewrite Hl.
Qed.

(* ================================================================= *)
(** ** The scanner and the sniffer *)

(** C4: on a regular file the callback of the scan appends the path to the
    candidate list exactly when the content type the sniffer returned for
    the file is ["application/zip"], and otherwise leaves the list as it
    is.  The content type is that of the leading bytes of the file, and
    the name plays no role: any other path to a file with the same bytes
    gets the same content type.  A scan that ends returns, in the order of
    the walk, the regular files so classified and no others. *)
Theorem visit_appends_iff_sniffed_zip (path : string)
  (zipFiles : list string) (w : World) (contentType : string)
  (err : option error) (w1 : World) :
  getFileContentType path w = Returned (contentType, err) w1 ->
  exists zipFiles' w',
    visit path (Some {| IsDir := false |}) None zipFiles w
      = Returned (zipFiles', None) w'
    /\ fs w' = fs w
    /\ (contentType = "application/zip" -> zipFiles' = zipFiles ++ [path])
    /\ (contentType <> "application/zip" -> zipFiles' = zipFiles)
    /\ (forall data, data <> [] ->
          lookup (fs w) (elements path) = Ok (File true data) ->
          contentType = DetectContentType (sniffBuffer data))
    /\ (forall a data other,
          lookup (fs w) (elements path) = Ok (File a data) ->
          lookup (fs w) (elements other) = Ok (File a data) ->
          exists err' w2,
            getFileContentType other w = Returned (contentType, err') w2)
    /\ (forall directory n,
          lookup (fs w) (elements directory) = Ok n ->
          listableAll n = true ->
          exists w2,
            findZipFiles directory w
              = Returned
                  (filter (fun p => isZip (sniff (fs w) p))
                     (filePaths directory n), None) w2).
Proof.
  intros Hsniff. rewrite getFileContentType_eq in Hsniff.
  injection Hsniff as Hs _.
  eexists _, _. split; [apply visit_file|].
  split; [reflexivity|]. rewrite Hs. unfold isZip. cbn [fst].
  split; [|split; [|split; [|split]]].
  - intros ->. reflexivity.
  - intros Hne. apply String.eqb_neq in Hne. now rewrite Hne.
  - intros data Hdata Hl. unfold sniff, Open in Hs. rewrite Hl in Hs.
    destruct data as [|d ds]; [contradiction|]. now injection Hs.
  - intros a data other Hp Ho.
    rewrite getFileContentType_eq. unfold sniff, Open in *.
    rewrite Hp in Hs. rewrite Ho.
    destruct a; [destruct data as [|d ds]|];
      injection Hs as <- _; eexists _, _; reflexivity.
  - intros directory n Hl Hall.
    destruct (findZipFiles_complete directory w n Hl Hall) as [w2 [E _]].
    now exists w2.
Qed.

(** C7: when the sniffer fails on a file, the callback logs the error,
    leaves the file out of the candidate list and lets the walk go on, and
    a walk of a tree whose directories can all be listed goes to the end
    whatever the sniffer said.  When some directory of the tree cannot be
    listed, the scan returns an error and no list; the run then returns
    that error without looking at any archive, the file tree being as it
    was and no event of an extraction in the trace, and [Execute] returns
    1. *)
Theorem scan_failure_semantics :
  (forall path zipFiles w contentType e w1,
     getFileContentType path w = Returned (contentType, Some e) w1 ->
     visit path (Some {| IsDir := false |}) None zipFiles w
       = Returned (zipFiles, None)
           (emit (Slog LevelError "error getting content type"
                    [("path", AString path); ("error", AError e)]) w1))
  /\ (forall directory n w,
        lookup (fs w) (elements directory) = Ok n ->
        listableAll n = true ->
        exists w',
          findZipFiles directory w
            = Returned (zipPaths (fs w) directory n, None) w')
  /\ (forall directory n w,
        lookup (fs w) (elements directory) = Ok n ->
        listableAll n = false ->
        exists p e w',
          findZipFiles directory w
            = Returned ([], Some (Errorf ("error walking " ++ directory)
                                    (Errorf ("error walking " ++ p) e))) w')
  /\ (forall opts w zipFiles err w1,
        DataDirectory opts <> "" ->
        findZipFiles (DataDirectory opts) (emit (startLog opts) w)
          = Returned (zipFiles, Some err) w1 ->
        run opts w = Returned (Some (Errorf "error finding zip files" err)) w1
        /\ quiet w w1)
  /\ (forall args opts0 opts w zipFiles err w1,
        parseFlags args = (opts0, None) ->
        setLogLevel opts0 = (opts, None) ->
        setupLogger opts = None ->
        DataDirectory opts <> "" ->
        findZipFiles (DataDirectory opts) (emit (startLog opts) w)
          = Returned (zipFiles, Some err) w1 ->
        exists w', Execute args w = Returned 1%Z w' /\ quiet w w').
Proof.
  assert (Hquiet : forall opts w zipFiles err w1,
             findZipFiles (DataDirectory opts) (emit (startLog opts) w)
               = Returned (zipFiles, err) w1 -> quiet w w1).
  { intros opts w zipFiles err w1 Hscan.
    destruct (findZipFiles_quiet (DataDirectory opts)
                (emit (startLog opts) w)) as [a [w' [E Q]]].
    rewrite E in Hscan. injection Hscan as _ <-.
    eapply quiet_trans; [|exact Q]. now apply quiet_emit. }
  split; [|split; [|split; [|split]]].
  - intros path zipFiles w contentType e w1 Hsniff.
    rewrite visit_file. rewrite getFileContentType_eq in Hsniff.
    injection Hsniff as Hs <-. rewrite Hs.
    assert (contentType = "") as ->.
    { unfold sniff in Hs.
      destruct (Open (fs w) path) as [[[|d ds] o|]|e0];
        try discriminate; now injection Hs. }
    unfold isZip, sniffLog, emit, addTrace. cbn [fst snd].
    simpl. now rewrite <- app_assoc.
  - intros directory n w Hl Hall.
    destruct (findZipFiles_complete directory w n Hl Hall) as [w' [E _]].
    now exists w'.
  - intros directory n w Hl Hall.
    destruct (findZipFiles_blocked directory w n Hl Hall)
      as [p [e [w' [E _]]]].
    now exists p, e, w'.
  - intros opts w zipFiles err w1 Hd Hscan. split.
    + now apply (run_scan_failed opts w w1 zipFiles).
    + now apply (Hquiet opts w zipFiles (Some err) w1).
  - intros args opts0 opts w zipFiles err w1 Hp Hl Hg Hd Hscan.
    unfold Execute, bind. rewrite Hp, Hl, Hg.
    rewrite (run_scan_failed opts w w1 zipFiles err Hd Hscan).
    eexists. split; [reflexivity|].
    eapply quiet_trans;
      [apply (Hquiet opts w zipFiles (Some err) w1 Hscan)|].
    now apply quiet_emit.
Qed.

(** C6, as amended: for a file that can be opened and is not empty the
    sniffer classifies the whole 512-byte buffer, which holds the first
    bytes of the file, at most 512, followed by zero bytes when the file is
    shorter, and returns that content type.  For an empty file the read
    reports the end of the file and the sniffer returns an error and no
    content type.  It returns an error when the file cannot be opened, and
    otherwise only when the first read fails, as it does on an empty file
    and on a directory. *)
Theorem getFileContentType_classifies_padded_buffer (filePath : string)
  (w : World) :
  (forall data, data <> [] ->
     lookup (fs w) (elements filePath) = Ok (File true data) ->
     getFileContentType filePath w
       = Returned
           (DetectContentType
              (firstn 512 data ++ repeat x00 (512 - List.length data)),
            None)
           (emit (OsOpen filePath) w))
  /\ (lookup (fs w) (elements filePath) = Ok (File true []) ->
      getFileContentType filePath w
        = Returned ("", Some (Errorf ("error reading " ++ filePath) EOF))
            (emit (OsOpen filePath) w))
  /\ (forall e, Open (fs w) filePath = Err e ->
      getFileContentType filePath w
        = Returned ("", Some (Errorf ("error opening " ++ filePath) e))
            (emit (OsOpen filePath) w))
  /\ (forall contentType e w',
        getFileContentType filePath w = Returned (contentType, Some e) w' ->
        (exists e0, Open (fs w) filePath = Err e0)
        \/ lookup (fs w) (elements filePath) = Ok (File true [])
        \/ (exists l es,
              lookup (fs w) (elements filePath) = Ok (Directory l es))).
Proof.
  rewrite getFileContentType_eq. unfold sniff, Open.
  split; [|split; [|split]].
  - intros data Hdata Hl. rewrite Hl.
    destruct data as [|d ds]; [contradiction | reflexivity].
  - intros Hl. now rewrite Hl.
  - intros e He. now rewrite He.
  - intros contentType e w' H.
    destruct (lookup (fs w) (elements filePath)) as [[[|] [|d ds]|l es]|e0];
      try discriminate.
    + right. left. reflexivity.
    + left. now exists EACCES.
    + left. now exists EACCES.
    + right. right. now exists l, es.
    + left. now exists e0.
Qed.

(* ================================================================= *)
(** ** The extractor *)

(** C1, as amended: for a file entry whose stream reads without error the
    extractor creates the output file at the join of the destination and
    the entry name and stores the bytes of the entry in it as they are,
    provided the directory that is to hold the file exists when the entry
    is reached and no directory or closed file stands at the target.  The
    extractor does not create that directory: when the path of the parent
    names nothing, the extraction stops at this entry with the error of
    the creation and the tree is as it was. *)
Theorem extractEntry_writes_under_existing_parent
  (zipFilePath destDir : string) (file : ZipFile) (data : list byte)
  (w : World) (parent : list string) (name : string) :
  entryIsDir file = false ->
  payload file = Stream data None ->
  elements (Join [destDir; Name file]) = parent ++ [name] ->
  (forall l es,
     lookup (fs w) parent = Ok (Directory l es) ->
     assoc name es = None \/ (exists old, assoc name es = Some (File true old)) ->
     exists w',
       extractEntry zipFilePath destDir file w = Returned None w'
       /\ lookup (fs w') (elements (Join [destDir; Name file]))
          = Ok (File true data))
  /\ (forall e,
        lookup (fs w) parent = Err e ->
        extractEntry zipFilePath destDir file w
          = Returned
              (Some (Errorf ("error creating " ++ Join [destDir; Name file])
                       e))
              (addTrace [ZipFileOpen (Name file);
                         OsCreate (Join [destDir; Name file])] w)).
Proof.
  intros Hfile Hpayload Helems.
  unfold extractEntry. rewrite Hfile.
  remember (Join [destDir; Name file]) as target eqn:Et.
  unfold bind, zip_File_Open, os_Create, Create, io_Copy, slog, ret.
  rewrite Hpayload. cbn [fs emit]. rewrite Helems. split.
  - intros l es Hp Hfree.
    destruct (writeFile_stores parent name [] (fs w) l es Hp Hfree)
      as [n1 [W1 L1]].
    rewrite W1. cbn [fs emit setFs].
    destruct (lookup_last parent name n1 _ L1) as [l1 [es1 [P1 A1]]].
    destruct (writeFile_stores parent name data n1 l1 es1 P1
                (or_intror (ex_intro _ [] A1))) as [n2 [W2 L2]].
    rewrite W2. eexists. split; [reflexivity|]. exact L2.
  - intros e Hp.
    rewrite (writeFile_no_parent parent name [] (fs w) e Hp).
    unfold addTrace, emit. cbn [fs trace]. now rewrite <- app_assoc.
Qed.

(** C10: a failed extraction is not tried again.  When the destination of
    an archive is not there, its creation succeeds and the extraction then
    fails, the orchestrator logs the error and goes on; the destination,
    with whatever the extraction wrote, is in the tree.  Let [mid] be the
    world at the end of that run, or any world that comes after the
    failure with nothing removed from the tree, and [later] the world
    after any number of further runs.  Every path the tree had after the
    failure is in the tree of [later], the destination among them, and in
    the run that starts in [later], whatever its options: the archive is
    never opened, and where the loop of the run takes the archive, the
    check finds the destination and the orchestrator logs the skip and
    does nothing else for it. *)
Theorem failed_extraction_is_never_retried (zipFile destDir : string)
  (w : World) (e0 : error) (created : node) (err : error) (w2 : World) :
  getExpandedPath zipFile = Value destDir ->
  Stat (fs w) destDir = Err e0 ->
  MkdirAll (fs w) destDir = Ok created ->
  extractZipFile zipFile destDir
    (setFs created (emit (OsMkdirAll destDir) (emit (OsStat destDir) w)))
    = Returned (Some err) w2 ->
  expandArchive zipFile w = Returned tt (emit (extractLog zipFile err) w2)
  /\ present (fs w2) (elements destDir)
  /\ forall mid later,
       extends (emit (extractLog zipFile err) w2) mid ->
       afterRuns mid later ->
       grows (fs w2) (fs later)
       /\ present (fs later) (elements destDir)
       /\ forall opts,
            notOpened zipFile later (worldOf (run opts later))
            /\ forall wk,
                 reachedAt opts later zipFile wk ->
                 expandArchive zipFile wk
                 = Returned tt
                     (addTrace [OsStat destDir; skipLog zipFile destDir] wk).
Proof.
  intros Hd Hs Hm Hx.
  assert (Hp2 : present (fs w2) (elements destDir)).
  { destruct (extractZipFile_extends zipFile destDir
                (setFs created
                   (emit (OsMkdirAll destDir) (emit (OsStat destDir) w))))
      as [a [w' [E [Hg2 _]]]].
    rewrite Hx in E. injection E as _ <-.
    apply Hg2. cbn [fs setFs].
    destruct (mkdirAll_is_dir _ _ _ Hm) as [l [es Hl]].
    now exists (Directory l es). }
  split; [|split; [exact Hp2|]].
  - unfold expandArchive, bind, liftGo, os_Stat, os_MkdirAll.
    rewrite Hd, Hs. cbn [fs emit]. rewrite Hm, Hx. reflexivity.
  - intros mid later Hmid Hlater.
    assert (Hg : grows (fs w2) (fs later)).
    { apply afterRuns_extends in Hlater.
      destruct (extends_trans _ _ _ Hmid Hlater) as [Hg _]. exact Hg. }
    assert (Hpresent : present (fs later) (elements destDir))
      by now apply Hg.
    split; [exact Hg|]. split; [exact Hpresent|].
    now apply run_skips_present.
Qed.

(* ================================================================= *)
(** ** More on the file tree *)

(** A write that succeeded: the path names a file with the data. *)
Lemma writeFile_lookup (p : list string) (data : list byte) :
  forall n n', writeFile n p data = Ok n' ->
  lookup n' p = Ok (File true data).
Proof.
  induction p as [|e rest IH]; intros n n' H.
  - destruct n; discriminate.
  - destruct n as [|l es]; simpl in H; [discriminate|].
    destruct rest as [|e2 rest].
    + destruct (assoc e es) as [[[|] d|l' es']|]; try discriminate;
        injection H as <-; simpl; now rewrite assoc_put_same.
    + destruct (assoc e es) as [child|]; [|discriminate].
      destruct (writeFile child (e2 :: rest) data) as [child'|] eqn:Hrec;
        [|discriminate].
      injection H as <-.
      change (lookup (Directory l (put e child' es)) (e :: e2 :: rest))
        with (match assoc e (put e child' es) with
              | Some c => lookup c (e2 :: rest)
              | None => Err ENOENT
              end).
      rewrite assoc_put_same. now apply (IH child).
Qed.

(** A write leaves the files at all other paths as they were. *)
Lemma writeFile_keeps_other (p : list string) (data : list byte) :
  forall n n' q a d,
    writeFile n p data = Ok n' -> q <> p ->
    lookup n q = Ok (File a d) -> lookup n' q = Ok (File a d).
Proof.
  induction p as [|e rest IH]; intros n n' q a d H Hne Hq.
  - destruct n; discriminate.
  - destruct n as [|l es]; simpl in H; [discriminate|].
    destruct q as [|x q']; [discriminate|]. simpl in Hq.
    destruct (assoc x es) as [c|] eqn:Ex; [|discriminate].
    destruct rest as [|e2 rest].
    + assert (Hn' : n' = Directory l (put e (File true data) es)).
      { destruct (assoc e es) as [[[|] d0|l' es']|]; try discriminate;
          now injection H. }
      subst n'. simpl.
      destruct (String.eqb_spec e x) as [->|Hex].
      * rewrite Ex in H.
        destruct c as [[|] d0|l' es']; [|discriminate|discriminate].
        destruct q' as [|y q'']; [now contradiction Hne|].
        discriminate.
      * rewrite (assoc_put_other e x _ es Hex), Ex. exact Hq.
    + destruct (assoc e es) as [child|] eqn:Ee; [|discriminate].
      destruct (writeFile child (e2 :: rest) data) as [child'|] eqn:Hrec;
        [|discriminate].
      injection H as <-. simpl.
      destruct (String.eqb_spec e x) as [->|Hex].
      * rewrite assoc_put_same. rewrite Ex in Ee. injection Ee as ->.
        apply (IH child child' q' a d Hrec); [|exact Hq].
        intros ->. now apply Hne.
      * rewrite (assoc_put_other e x _ es Hex), Ex. exact Hq.
Qed.

(** The creation of directories leaves every regular file as it was. *)
Lemma mkdirAll_keeps_file (p : list string) :
  forall n n' q a d,
    mkdirAll n p = Ok n' ->
    lookup n q = Ok (File a d) -> lookup n' q = Ok (File a d).
Proof.
  induction p as [|e rest IH]; intros n n' q a d H Hq.
  - destruct n; simpl in H; [discriminate|]. now injection H as <-.
  - destruct n as [|l es]; simpl in H; [discriminate|].
    destruct (mkdirAll _ rest) as [child'|] eqn:Hrec; [|discriminate].
    injection H as <-.
    destruct q as [|x q']; [discriminate|]. simpl in Hq. simpl.
    destruct (assoc x es) as [c|] eqn:Ex; [|discriminate].
    destruct (String.eqb_spec e x) as [->|Hex].
    + rewrite assoc_put_same. rewrite Ex in Hrec.
      now apply (IH c child' q' a d Hrec).
    + now rewrite (assoc_put_other e x _ es Hex), Ex.
Qed.

(** A directory that [MkdirAll] had to create is empty. *)
Lemma mkdirAll_fresh (p : list string) :
  forall n n' err,
    lookup n p = Err err -> mkdirAll n p = Ok n' ->
    lookup n' p = Ok (Directory true []).
Proof.
  induction p as [|e rest IH]; intros n n' err Hl H.
  - discriminate.
  - destruct n as [|l es]; simpl in H; [discriminate|].
    destruct (mkdirAll _ rest) as [child'|] eqn:Hrec; [|discriminate].
    injection H as <-. simpl. rewrite assoc_put_same. simpl in Hl.
    destruct (assoc e es) as [c|] eqn:Ee.
    + now apply (IH c child' err).
    + clear IH Hl. revert child' Hrec.
      induction rest as [|e2 rest IH2]; intros child' Hrec.
      * simpl in Hrec. now injection Hrec as <-.
      * simpl in Hrec.
        destruct (mkdirAll (Directory true []) rest) as [c2|] eqn:Hrec2;
          [|discriminate].
        injection Hrec as <-. simpl. rewrite String.eqb_refl.
        now apply IH2.
Qed.

Lemma keepsKinds_refl (n : node) : keepsKinds n n.
Proof. intros q m H. now exists m. Qed.

Lemma keepsKinds_trans (a b c : node) :
  keepsKinds a b -> keepsKinds b c -> keepsKinds a c.
Proof.
  intros Hab Hbc q m H.
  destruct (Hab q m H) as [m1 [H1 K1]].
  destruct (Hbc q m1 H1) as [m2 [H2 K2]].
  exists m2. split; [exact H2 | congruence].
Qed.

Lemma keepsKinds_put (l : bool) (es : list (string * node)) (e : string)
  (child' : node) :
  (forall child, assoc e es = Some child -> keepsKinds child child') ->
  keepsKinds (Directory l es) (Directory l (put e child' es)).
Proof.
  intros Hchild q m Hq. destruct q as [|x rest].
  - simpl in Hq. injection Hq as <-. eexists. split; reflexivity.
  - simpl in Hq. simpl.
    destruct (assoc x es) as [c|] eqn:Ex; [|discriminate].
    destruct (String.eqb_spec e x) as [->|Hne].
    + rewrite assoc_put_same. now apply (Hchild c Ex).
    + rewrite (assoc_put_other e x child' es Hne), Ex. now exists m.
Qed.

Lemma mkdirAll_keepsKinds (p : list string) :
  forall n n', mkdirAll n p = Ok n' -> keepsKinds n n'.
Proof.
  induction p as [|e rest IH]; intros n n' H.
  - destruct n; simpl in H; [discriminate|]. injection H as <-.
    apply keepsKinds_refl.
  - destruct n as [|l es]; simpl in H; [discriminate|].
    destruct (mkdirAll _ rest) as [child'|] eqn:Hrec; [|discriminate].
    injection H as <-.
    apply keepsKinds_put. intros child Hc. rewrite Hc in Hrec.
    now apply (IH child).
Qed.

Lemma writeFile_keepsKinds (p : list string) (data : list byte) :
  forall n n', writeFile n p data = Ok n' -> keepsKinds n n'.
Proof.
  induction p as [|e rest IH]; intros n n' H.
  - destruct n; discriminate.
  - destruct n as [|l es]; simpl in H; [discriminate|].
    destruct rest as [|e2 rest].
    + destruct (assoc e es) as [[[|] d|l' es']|] eqn:Ea;
        try discriminate; injection H as <-;
        apply keepsKinds_put; intros child Hc; rewrite Ea in Hc;
        try discriminate; injection Hc as <-.
      intros q m Hq. destruct q as [|x q']; [|discriminate].
      simpl in Hq. injection Hq as <-. eexists. split; reflexivity.
    + destruct (assoc e es) as [child|] eqn:Ea; [|discriminate].
      destruct (writeFile child (e2 :: rest) data) as [child'|] eqn:Hrec;
        [|discriminate].
      injection H as <-.
      apply keepsKinds_put. intros c Hc. rewrite Ea in Hc.
      injection Hc as <-. now apply IH.
Qed.

Lemma reaches_trans (a b c : node) :
  reaches a b -> reaches b c -> reaches a c.
Proof.
  induction 1 as [n|n n1 n' p Hm _ IH|n n1 n' p data Hw _ IH]; intros Hbc.
  - exact Hbc.
  - eapply reaches_mkdir; [exact Hm | now apply IH].
  - eapply reaches_write; [exact Hw | now apply IH].
Qed.

Lemma reaches_keepsKinds (n n' : node) : reaches n n' -> keepsKinds n n'.
Proof.
  induction 1 as [n|n n1 n' p Hm _ IH|n n1 n' p data Hw _ IH].
  - apply keepsKinds_refl.
  - eapply keepsKinds_trans; [eapply mkdirAll_keepsKinds; exact Hm | exact IH].
  - eapply keepsKinds_trans;
      [eapply writeFile_keepsKinds; exact Hw | exact IH].
Qed.

(* ================================================================= *)
(** ** Every change of the tree is a creation or a write *)

Lemma changes_refl (w : World) : changes w w.
Proof. apply reaches_here. Qed.

Lemma changes_trans (a b c : World) :
  changes a b -> changes b c -> changes a c.
Proof. apply reaches_trans. Qed.

Lemma quiet_changes (w w' : World) : quiet w w' -> changes w w'.
Proof.
  intros [Hfs _]. unfold changes. rewrite Hfs. apply reaches_here.
Qed.

Lemma os_MkdirAll_changes (path : string) :
  returning (os_MkdirAll path) changes.
Proof.
  intros w. unfold os_MkdirAll.
  destruct (MkdirAll (fs w) path) as [fs'|e] eqn:E.
  - eexists _, _. split; [reflexivity|].
    eapply reaches_mkdir; [exact E | apply reaches_here].
  - eexists _, _. split; [reflexivity | apply reaches_here].
Qed.

Lemma os_Create_changes (path : string) : returning (os_Create path) changes.
Proof.
  intros w. unfold os_Create.
  destruct (Create (fs w) path) as [fs'|e] eqn:E.
  - eexists _, _. split; [reflexivity|].
    eapply reaches_write; [exact E | apply reaches_here].
  - eexists _, _. split; [reflexivity | apply reaches_here].
Qed.

Lemma io_Copy_changes (path : string) (data : list byte)
  (end_ : option error) :
  returning (io_Copy path data end_) changes.
Proof.
  intros w. unfold io_Copy.
  destruct (writeFile (fs w) (elements path) data) as [fs'|e] eqn:E.
  - eexists _, _. split; [reflexivity|].
    eapply reaches_write; [exact E | apply reaches_here].
  - eexists _, _. split; [reflexivity | apply reaches_here].
Qed.

Lemma slog_changes (level : Level) (msg : string)
  (attrs : list (string * attr)) :
  returning (slog level msg attrs) changes.
Proof.
  eapply returning_weaken; [apply quiet_changes | apply slog_quiet].
Qed.

Lemma extractEntry_changes (zipFilePath destDir : string) (file : ZipFile) :
  returning (extractEntry zipFilePath destDir file) changes.
Proof.
  unfold extractEntry. destruct (entryIsDir file).
  - apply returning_bind; [apply changes_trans | apply os_MkdirAll_changes |].
    intros [e|]; apply returning_ret, changes_refl.
  - apply returning_bind; [apply changes_trans | |].
    { intros w. eexists _, _. split; [reflexivity | apply reaches_here]. }
    intros [[data end_]|e]; [|apply returning_ret, changes_refl].
    apply returning_bind; [apply changes_trans | apply os_Create_changes |].
    intros [e|]; [apply returning_ret, changes_refl|].
    apply returning_bind; [apply changes_trans | apply io_Copy_changes |].
    intros [e|]; [apply returning_ret, changes_refl|].
    apply returning_bind; [apply changes_trans | apply slog_changes |].
    intros _. apply returning_ret, changes_refl.
Qed.

Lemma forRangeErr_changes {A : Type} (xs : list A)
  (body : A -> M (option error)) :
  (forall x, returning (body x) changes) ->
  returning (forRangeErr xs body) changes.
Proof.
  intros Hbody. induction xs as [|x rest IH]; simpl.
  - apply returning_ret, changes_refl.
  - apply returning_bind; [apply changes_trans | apply Hbody |].
    intros [e|]; [apply returning_ret, changes_refl | exact IH].
Qed.

Lemma extractZipFile_changes (zipFilePath destDir : string) :
  returning (extractZipFile zipFilePath destDir) changes.
Proof.
  unfold extractZipFile. apply returning_bind; [apply changes_trans | |].
  { intros w. eexists _, _. split; [reflexivity | apply reaches_here]. }
  intros [files|e]; [|apply returning_ret, changes_refl].
  apply forRangeErr_changes. intros file. apply extractEntry_changes.
Qed.

Lemma expandArchive_changes (zipFile : string) (w : World) :
  changes w (worldOf (expandArchive zipFile w)).
Proof.
  unfold expandArchive, bind, liftGo.
  destruct (getExpandedPath zipFile) as [d|msg]; [|apply changes_refl].
  unfold os_Stat. destruct (Stat (fs w) d) as [info|e0].
  - apply reaches_here.
  - destruct (os_MkdirAll_changes d (emit (OsStat d) w))
      as [[e1|] [w1 [E1 C1]]]; rewrite E1.
    + exact C1.
    + destruct (extractZipFile_changes zipFile d w1)
        as [[e2|] [w2 [E2 C2]]]; rewrite E2; simpl;
        eapply changes_trans; try eassumption; apply C1.
Qed.

Lemma forRange_changes (zipFiles : list string) (w : World) :
  changes w (worldOf (forRange zipFiles expandArchive w)).
Proof.
  revert w. induction zipFiles as [|z rest IH]; intros w; simpl.
  - apply changes_refl.
  - unfold bind. pose proof (expandArchive_changes z w) as X.
    destruct (expandArchive z w) as [[] w1|msg w1]; simpl in X.
    + eapply changes_trans; [exact X | apply IH].
    + exact X.
Qed.

Lemma run_changes (opts : Options) (w : World) :
  changes w (worldOf (run opts w)).
Proof.
  destruct (String.eqb_spec (DataDirectory opts) "") as [Hd|Hd].
  - rewrite (run_no_directory opts w Hd). apply reaches_here.
  - destruct (findZipFiles_quiet (DataDirectory opts)
                (emit (startLog opts) w)) as [[zs [err|]] [w1 [E Q]]].
    + rewrite (run_scan_failed opts w w1 zs err Hd E). simpl.
      apply quiet_changes in Q. exact Q.
    + rewrite (run_scan_ok opts w w1 zs Hd E).
      pose proof (forRange_changes zs (emit (foundLog zs) w1)) as X.
      apply quiet_changes in Q.
      destruct (forRange zs expandArchive (emit (foundLog zs) w1));
        simpl in *; eapply changes_trans; try exact X; exact Q.
Qed.

(* ================================================================= *)
(** ** What a successful extraction leaves in the tree *)

Lemma zip_OpenReader_eq (path : string) (w : World) :
  zip_OpenReader path w
    = Returned (membersOf (fs w) path) (emit (ZipOpenReader path) w).
Proof. reflexivity. Qed.

Lemma forRangeErr_app_ok {A : Type} (xs ys : list A)
  (body : A -> M (option error)) :
  forall w w',
    forRangeErr (xs ++ ys) body w = Returned None w' ->
    exists w1, forRangeErr xs body w = Returned None w1
               /\ forRangeErr ys body w1 = Returned None w'.
Proof.
  induction xs as [|x rest IH]; intros w w' H.
  - exists w. split; [reflexivity | exact H].
  - simpl in H. simpl. unfold bind in *.
    destruct (body x w) as [[e|] w1|msg w1]; try discriminate.
    now apply IH.
Qed.

(** A file member that was extracted: its stream ended well and the target
    holds its bytes. *)
Lemma extractEntry_file_ok (zipFilePath destDir : string) (file : ZipFile)
  (w w' : World) :
  entryIsDir file = false ->
  extractEntry zipFilePath destDir file w = Returned None w' ->
  exists data,
    payload file = Stream data None
    /\ lookup (fs w') (targetOf destDir file) = Ok (File true data).
Proof.
  intros Hfile. unfold extractEntry, targetOf. rewrite Hfile.
  remember (Join [destDir; Name file]) as target eqn:Et.
  unfold bind, zip_File_Open, os_Create, Create, io_Copy, slog, ret.
  destruct (payload file) as [e|data end_]; [discriminate|].
  cbn [fs emit].
  destruct (writeFile (fs w) (elements target) []) as [n1|e1];
    [|discriminate].
  cbn [fs emit setFs].
  destruct (writeFile n1 (elements target) data) as [n2|e2] eqn:W2;
    [|discriminate].
  destruct end_ as [e3|]; [discriminate|].
  intros H. injection H as <-. exists data. split; [reflexivity|].
  cbn [fs emit setFs]. now apply writeFile_lookup in W2.
Qed.

(** A directory member that was extracted: the target is a directory. *)
Lemma extractEntry_dir_ok (zipFilePath destDir : string) (file : ZipFile)
  (w w' : World) :
  entryIsDir file = true ->
  extractEntry zipFilePath destDir file w = Returned None w' ->
  exists l es, lookup (fs w') (targetOf destDir file) = Ok (Directory l es).
Proof.
  intros Hdir. unfold extractEntry, targetOf. rewrite Hdir.
  remember (Join [destDir; Name file]) as target eqn:Et.
  unfold bind, os_MkdirAll, MkdirAll, ret.
  destruct (mkdirAll (fs w) (elements target)) as [n1|e1] eqn:Hm;
    [|discriminate].
  intros H. injection H as <-. cbn [fs setFs].
  now apply mkdirAll_is_dir in Hm.
Qed.

(** The extraction of a member leaves the regular files at all paths but
    its own target as they were. *)
Lemma extractEntry_keeps_file (zipFilePath destDir : string) (g : ZipFile)
  (w w' : World) (r : option error) (q : list string) (a : bool)
  (d : list byte) :
  extractEntry zipFilePath destDir g w = Returned r w' ->
  (entryIsDir g = false -> targetOf destDir g <> q) ->
  lookup (fs w) q = Ok (File a d) ->
  lookup (fs w') q = Ok (File a d).
Proof.
  unfold extractEntry, targetOf.
  remember (Join [destDir; Name g]) as target eqn:Et.
  destruct (entryIsDir g).
  - intros H _ Hq. revert H.
    unfold bind, os_MkdirAll, MkdirAll, ret.
    destruct (mkdirAll (fs w) (elements target)) as [n1|e1] eqn:Hm;
      intros H; injection H as _ <-; cbn [fs emit setFs].
    + eapply mkdirAll_keeps_file; eassumption.
    + exact Hq.
  - intros H Hne Hq. specialize (Hne eq_refl).
    assert (Hne' : q <> elements target) by (intros ->; now apply Hne).
    revert H.
    unfold bind, zip_File_Open, os_Create, Create, io_Copy, slog, ret.
    destruct (payload g) as [e|data end_].
    { intros H. injection H as _ <-. exact Hq. }
    cbn [fs emit].
    destruct (writeFile (fs w) (elements target) []) as [n1|e1] eqn:W1.
    2:{ intros H. injection H as _ <-. exact Hq. }
    cbn [fs emit setFs].
    pose proof (writeFile_keeps_other _ _ _ _ q a d W1 Hne' Hq) as Hq1.
    destruct (writeFile n1 (elements target) data) as [n2|e2] eqn:W2.
    2:{ intros H. injection H as _ <-. exact Hq1. }
    pose proof (writeFile_keeps_other _ _ _ _ q a d W2 Hne' Hq1) as Hq2.
    destruct end_ as [e3|]; intros H; injection H as _ <-; exact Hq2.
Qed.

Lemma forRangeErr_keeps_file (zipFilePath destDir : string)
  (post : list ZipFile) (q : list string) (a : bool) (d : list byte) :
  forall w w',
    forRangeErr post (extractEntry zipFilePath destDir) w = Returned None w' ->
    (forall g, In g post -> entryIsDir g = false ->
               targetOf destDir g <> q) ->
    lookup (fs w) q = Ok (File a d) ->
    lookup (fs w') q = Ok (File a d).
Proof.
  induction post as [|g rest IH]; intros w w' H Hother Hq.
  - simpl in H. injection H as <-. exact Hq.
  - simpl in H. unfold bind in H.
    destruct (extractEntry zipFilePath destDir g w) as [[e|] w1|msg w1] eqn:E;
      try discriminate.
    apply (IH w1 w' H).
    + intros g' Hin. apply Hother. now right.
    + apply (extractEntry_keeps_file _ _ _ _ _ _ _ _ _ E); [|exact Hq].
      apply Hother. now left.
Qed.

(** X11: when the extraction of an archive returns without error, every
    file member holds in the tree, at the join of the destination and its
    name, exactly the bytes of its stream, provided no later file member
    of the archive is written to the same path. *)
Theorem extracted_files_hold_their_bytes (zipFilePath destDir : string)
  (pre post : list ZipFile) (file : ZipFile) (w w' : World) :
  membersOf (fs w) zipFilePath = Ok (pre ++ file :: post) ->
  extractZipFile zipFilePath destDir w = Returned None w' ->
  entryIsDir file = false ->
  (forall g, In g post -> entryIsDir g = false ->
             targetOf destDir g <> targetOf destDir file) ->
  exists data,
    payload file = Stream data None
    /\ lookup (fs w') (targetOf destDir file) = Ok (File true data).
Proof.
  intros Hmem Hx Hfile Hlater.
  unfold extractZipFile, bind in Hx. rewrite zip_OpenReader_eq, Hmem in Hx.
  destruct (forRangeErr_app_ok _ _ _ _ _ Hx) as [w1 [_ Hrest]].
  simpl in Hrest. unfold bind in Hrest.
  destruct (extractEntry zipFilePath destDir file w1) as [[e|] w2|msg w2] eqn:E;
    try discriminate.
  destruct (extractEntry_file_ok _ _ _ _ _ Hfile E) as [data [Hp Hl]].
  exists data. split; [exact Hp|].
  now apply (forRangeErr_keeps_file zipFilePath destDir post _ true data
               w2 w' Hrest Hlater).
Qed.

(** X12: when the extraction of an archive returns without error, the path
    of every directory member names a directory of the tree. *)
Theorem extracted_directories_are_there (zipFilePath destDir : string)
  (pre post : list ZipFile) (file : ZipFile) (w w' : World) :
  membersOf (fs w) zipFilePath = Ok (pre ++ file :: post) ->
  extractZipFile zipFilePath destDir w = Returned None w' ->
  entryIsDir file = true ->
  exists l es, lookup (fs w') (targetOf destDir file) = Ok (Directory l es).
Proof.
  intros Hmem Hx Hdir.
  unfold extractZipFile, bind in Hx. rewrite zip_OpenReader_eq, Hmem in Hx.
  destruct (forRangeErr_app_ok _ _ _ _ _ Hx) as [w1 [_ Hrest]].
  simpl in Hrest. unfold bind in Hrest.
  destruct (extractEntry zipFilePath destDir file w1) as [[e|] w2|msg w2] eqn:E;
    try discriminate.
  destruct (extractEntry_dir_ok _ _ _ _ _ Hdir E) as [l [es Hl]].
  destruct (forRangeErr_changes post (extractEntry zipFilePath destDir)
              (extractEntry_changes zipFilePath destDir) w2)
    as [r [w3 [E3 C3]]].
  rewrite Hrest in E3. injection E3 as _ <-.
  destruct (reaches_keepsKinds _ _ C3 _ _ Hl) as [m' [Hm' Hk]].
  destruct m' as [a d|l' es']; [discriminate|]. now exists l', es'.
Qed.

(** X13: the extraction stops at the first member that fails.  When the
    members before it were extracted and it fails, [extractZipFile] returns
    its error and leaves the world as that member left it: nothing is done
    for the members behind it. *)
Theorem extraction_stops_at_first_failure (zipFilePath destDir : string)
  (pre post : list ZipFile) (bad : ZipFile) (w w1 w2 : World) (e : error) :
  membersOf (fs w) zipFilePath = Ok (pre ++ bad :: post) ->
  forRangeErr pre (extractEntry zipFilePath destDir)
    (emit (ZipOpenReader zipFilePath) w) = Returned None w1 ->
  extractEntry zipFilePath destDir bad w1 = Returned (Some e) w2 ->
  extractZipFile zipFilePath destDir w = Returned (Some e) w2.
Proof.
  intros Hmem Hpre Hbad.
  unfold extractZipFile, bind. rewrite zip_OpenReader_eq, Hmem.
  clear Hmem. revert Hpre. generalize (emit (ZipOpenReader zipFilePath) w).
  induction pre as [|x rest IH]; intros w0 Hpre.
  - simpl in Hpre. injection Hpre as ->. simpl. unfold bind.
    now rewrite Hbad.
  - simpl in Hpre. simpl. unfold bind in *.
    destruct (extractEntry zipFilePath destDir x w0) as [[e0|] w0'|msg w0'];
      try discriminate.
    now apply IH.
Qed.

(** X14: when the stream of a file member fails after it delivered some
    bytes, and the directory for the file is there, the extractor returns
    the error of the copy and the file stays in the tree with the bytes
    that were delivered: nothing is rolled back. *)
Theorem failed_copy_leaves_partial_file (zipFilePath destDir : string)
  (file : ZipFile) (data : list byte) (e : error) (w : World)
  (parent : list string) (name : string) (l : bool)
  (es : list (string * node)) :
  entryIsDir file = false ->
  payload file = Stream data (Some e) ->
  targetOf destDir file = parent ++ [name] ->
  lookup (fs w) parent = Ok (Directory l es) ->
  assoc name es = None \/ (exists old, assoc name es = Some (File true old)) ->
  exists w',
    extractEntry zipFilePath destDir file w
      = Returned
          (Some (Errorf ("error copying " ++ Join [destDir; Name file]) e)) w'
    /\ lookup (fs w') (targetOf destDir file) = Ok (File true data).
Proof.
  intros Hfile Hpayload Helems Hp Hfree.
  unfold extractEntry, targetOf in *. rewrite Hfile.
  remember (Join [destDir; Name file]) as target eqn:Et.
  unfold bind, zip_File_Open, os_Create, Create, io_Copy, slog, ret.
  rewrite Hpayload. cbn [fs emit]. rewrite Helems.
  destruct (writeFile_stores parent name [] (fs w) l es Hp Hfree)
    as [n1 [W1 L1]].
  rewrite W1. cbn [fs emit setFs].
  destruct (lookup_last parent name n1 _ L1) as [l1 [es1 [P1 A1]]].
  destruct (writeFile_stores parent name data n1 l1 es1 P1
              (or_intror (ex_intro _ [] A1))) as [n2 [W2 L2]].
  rewrite W2. eexists. split; [reflexivity|]. exact L2.
Qed.

(** X15: when the destination of an archive is not there and [zip] cannot
    open the archive, the orchestrator has created the destination before
    it finds out: it logs the error and leaves the destination behind as
    an empty directory. *)
Theorem unreadable_archive_leaves_empty_destination
  (zipFile destDir : string) (w : World) (e0 : error) (created : node)
  (e : error) :
  getExpandedPath zipFile = Value destDir ->
  Stat (fs w) destDir = Err e0 ->
  MkdirAll (fs w) destDir = Ok created ->
  membersOf created zipFile = Err e ->
  exists w',
    expandArchive zipFile w = Returned tt w'
    /\ fs w' = created
    /\ lookup created (elements destDir) = Ok (Directory true [])
    /\ trace w'
       = trace w ++ [OsStat destDir; OsMkdirAll destDir;
                     ZipOpenReader zipFile;
                     extractLog zipFile
                       (Errorf ("error opening " ++ zipFile) e)].
Proof.
  intros Hd Hs Hm Hmem.
  unfold expandArchive, bind, liftGo, os_Stat, os_MkdirAll, extractZipFile.
  rewrite Hd, Hs. cbn [fs emit]. rewrite Hm.
  unfold bind. rewrite zip_OpenReader_eq. cbn [fs emit setFs].
  rewrite Hmem. unfold ret, slog.
  eexists. split; [reflexivity|]. split; [reflexivity|]. split.
  - unfold Stat in Hs.
    destruct (lookup (fs w) (elements destDir)) as [m|e1] eqn:Hl;
      [discriminate|].
    eapply mkdirAll_fresh; eassumption.
  - unfold emit, setFs, extractLog. cbn [trace]. now rewrite <- !app_assoc.
Qed.

(** X10: however a run ends, with [nil], with an error or with a panic,
    every path that named a directory before it names a directory after
    it, and every path that named a regular file names a regular file:
    the program removes nothing and puts no file in the place of a
    directory or a directory in the place of a file. *)
Theorem run_keeps_every_path (opts : Options) (w : World) :
  keepsKinds (fs w) (fs (worldOf (run opts w))).
Proof.
  apply reaches_keepsKinds. apply run_changes.
Qed.

(* ================================================================= *)
(** ** More on the destination resolver and the orchestrator *)

(** X1: the resolver does not look at the last four bytes of the base name
    it cuts off.  Whatever they are, [".zip"] or not, the destination is
    the join of the parent directory, ["expanded"] and the base name
    without them. *)
Theorem getExpandedPath_strips_any_four_bytes
  (zipFilePath stem suffix : string) :
  Base zipFilePath = (stem ++ suffix)%string ->
  String.length suffix = 4 ->
  getExpandedPath zipFilePath
    = Value (Join [Dir zipFilePath; "expanded"; stem]).
Proof.
  intros Hbase Hlen. unfold getExpandedPath. rewrite Hbase.
  now rewrite (sliceTo_drop4 stem suffix Hlen).
Qed.

(** An archive handled right after an archive with the same destination,
    or after itself: it is not unpacked and the tree stays as the first
    one left it. *)
Lemma expandArchive_twice (first second destDir : string) (w : World) :
  getExpandedPath first = Value destDir ->
  getExpandedPath second = Value destDir ->
  exists w1 w2 t,
    expandArchive first w = Returned tt w1
    /\ expandArchive second w1 = Returned tt w2
    /\ fs w2 = fs w1
    /\ trace w2 = trace w1 ++ t
    /\ existsb unpackEvent t = false.
Proof.
  intros H1 H2.
  destruct (Stat (fs w) destDir) as [info|e0] eqn:Hs.
  - rewrite (expandArchive_skips first destDir info w H1 Hs).
    eexists _, _, _. split; [reflexivity|].
    rewrite (expandArchive_skips second destDir info
               (addTrace [OsStat destDir; skipLog first destDir] w) H2 Hs).
    repeat split.
  - destruct (MkdirAll (fs w) destDir) as [created|e1] eqn:Hm.
    + assert (Hfirst : exists w1, expandArchive first w = Returned tt w1
                                  /\ present (fs w1) (elements destDir)).
      { unfold expandArchive, bind, liftGo, os_Stat, os_MkdirAll.
        rewrite H1, Hs. cbn [fs emit]. rewrite Hm.
        destruct (extractZipFile_extends first destDir
                    (setFs created
                       (emit (OsMkdirAll destDir)
                          (emit (OsStat destDir) w))))
          as [r [w2 [E [Hg _]]]].
        rewrite E.
        assert (Hp : present (fs w2) (elements destDir)).
        { apply Hg. cbn [fs setFs].
          destruct (mkdirAll_is_dir _ _ _ Hm) as [l [es Hl]].
          now exists (Directory l es). }
        destruct r as [e2|]; eexists; (split; [reflexivity | exact Hp]). }
      destruct Hfirst as [w1 [E1 [m Hl]]].
      exists w1. eexists _, _. split; [exact E1|].
      assert (Hs1 : Stat (fs w1) destDir = Ok (infoOf m))
        by (unfold Stat; now rewrite Hl).
      rewrite (expandArchive_skips second destDir _ w1 H2 Hs1).
      repeat split.
    + unfold expandArchive, bind, liftGo, os_Stat, os_MkdirAll.
      rewrite H1, H2, Hs. cbn [fs emit]. rewrite Hm. unfold slog.
      eexists _, _, _. split; [reflexivity|].
      cbn [fs emit]. rewrite Hs. cbn [fs emit]. rewrite Hm.
      split; [reflexivity|]. split; [reflexivity|].
      split.
      * unfold emit. cbn [trace]. rewrite <- !app_assoc. reflexivity.
      * reflexivity.
Qed.

(** X2: two archives of one directory whose base names differ only in
    their last four bytes have the same destination.  When the
    orchestrator has handled one of them, it does not unpack the other:
    no archive is opened, no file is written and the tree stays as it
    is. *)
Theorem same_stem_archives_share_a_destination
  (first second stem suffix1 suffix2 : string) (w : World) :
  Dir first = Dir second ->
  Base first = (stem ++ suffix1)%string ->
  Base second = (stem ++ suffix2)%string ->
  String.length suffix1 = 4 ->
  String.length suffix2 = 4 ->
  getExpandedPath first = getExpandedPath second
  /\ exists w1 w2 t,
       expandArchive first w = Returned tt w1
       /\ expandArchive second w1 = Returned tt w2
       /\ fs w2 = fs w1
       /\ trace w2 = trace w1 ++ t
       /\ existsb unpackEvent t = false.
Proof.
  intros Hdir Hb1 Hb2 Hl1 Hl2.
  assert (H1 : getExpandedPath first
               = Value (Join [Dir first; "expanded"; stem])).
  { unfold getExpandedPath. rewrite Hb1.
    now rewrite (sliceTo_drop4 stem suffix1 Hl1). }
  assert (H2 : getExpandedPath second
               = Value (Join [Dir first; "expanded"; stem])).
  { unfold getExpandedPath. rewrite Hb2, Hdir.
    now rewrite (sliceTo_drop4 stem suffix2 Hl2). }
  split; [now rewrite H1, H2|].
  eapply expandArchive_twice; eassumption.
Qed.

(** X3: an archive whose destination the resolver returns is unpacked at
    most once: when the orchestrator handles it again right after it
    handled it, whatever the first time did, it opens no archive and
    writes no file, and the tree stays as it is. *)
Theorem archive_is_not_unpacked_twice (zipFile destDir : string)
  (w : World) :
  getExpandedPath zipFile = Value destDir ->
  exists w1 w2 t,
    expandArchive zipFile w = Returned tt w1
    /\ expandArchive zipFile w1 = Returned tt w2
    /\ fs w2 = fs w1
    /\ trace w2 = trace w1 ++ t
    /\ existsb unpackEvent t = false.
Proof.
  intros Hd. eapply expandArchive_twice; eassumption.
Qed.

Lemma forRange_panic_inv (zipFiles : list string) :
  forall w msg w',
    forRange zipFiles expandArchive w = Panicked msg w' ->
    msg = sliceBounds
    /\ exists z, In z zipFiles /\ String.length (Base z) < 4.
Proof.
  induction zipFiles as [|z rest IH]; intros w msg w' H.
  - discriminate.
  - simpl in H. unfold bind in H.
    destruct (getExpandedPath_cases z) as [[_ Hv]|[Hlt Hp]].
    + destruct (expandArchive_returns z _ Hv w) as [[] [w1 [E _]]].
      rewrite E in H. destruct (IH w1 msg w' H) as [Hmsg [z' [Hin Hs]]].
      split; [exact Hmsg|]. exists z'. split; [now right | exact Hs].
    + rewrite (expandArchive_panics z _ w Hp) in H.
      injection H as <- _. split; [reflexivity|].
      exists z. split; [now left | exact Hlt].
Qed.

(** X4: the only panic of a run is the slice of the resolver.  When a run
    panics, its scan had succeeded and found an archive whose base name
    has fewer than four bytes, and the message is that of a slice out of
    bounds. *)
Theorem run_panics_only_on_short_names (opts : Options) (w : World)
  (msg : string) (w' : World) :
  run opts w = Panicked msg w' ->
  msg = sliceBounds
  /\ exists zipFiles w1 z,
       findZipFiles (DataDirectory opts) (emit (startLog opts) w)
         = Returned (zipFiles, None) w1
       /\ In z zipFiles
       /\ String.length (Base z) < 4.
Proof.
  intros H.
  destruct (String.eqb_spec (DataDirectory opts) "") as [Hd|Hd].
  - rewrite (run_no_directory opts w Hd) in H. discriminate.
  - destruct (findZipFiles_quiet (DataDirectory opts)
                (emit (startLog opts) w)) as [[zs [err|]] [w1 [E _]]].
    + rewrite (run_scan_failed opts w w1 zs err Hd E) in H. discriminate.
    + rewrite (run_scan_ok opts w w1 zs Hd E) in H.
      destruct (forRange zs expandArchive (emit (foundLog zs) w1))
        as [[] w2|msg2 w2] eqn:EF; [discriminate|].
      injection H as <- _.
      destruct (forRange_panic_inv zs _ _ _ EF) as [Hmsg [z [Hin Hs]]].
      split; [exact Hmsg|]. now exists zs, w1, z.
Qed.

(** X5: when the destination of an archive is not there and its creation
    fails, with whatever error, the orchestrator logs that error and goes
    on: after the check and the call that failed it makes no other call,
    and the archive is not opened. *)
Theorem failed_mkdir_is_logged_and_skipped (zipFile destDir : string)
  (w : World) (e0 e1 : error) :
  getExpandedPath zipFile = Value destDir ->
  Stat (fs w) destDir = Err e0 ->
  MkdirAll (fs w) destDir = Err e1 ->
  expandArchive zipFile w
  = Returned tt
      (addTrace [OsStat destDir; OsMkdirAll destDir;
                 mkdirLog destDir e1] w).
Proof.
  intros Hd Hs Hm.
  unfold expandArchive, bind, liftGo, os_Stat, os_MkdirAll.
  rewrite Hd, Hs. cbn [fs emit]. rewrite Hm.
  unfold slog, emit, addTrace, mkdirLog. cbn [fs trace].
  now rewrite <- !app_assoc.
Qed.

(** X6: when [Execute] returns, its status is 0 or 1, and it is 0 exactly
    when the flags were parsed, the log level and the logger were set up
    and [run] returned [nil]. *)
Theorem Execute_exit_status (args : list string) (w : World) (code : Z)
  (w' : World) :
  Execute args w = Returned code w' ->
  (code = 0%Z \/ code = 1%Z)
  /\ (code = 0%Z <->
      exists opts0 opts,
        parseFlags args = (opts0, None)
        /\ setLogLevel opts0 = (opts, None)
        /\ setupLogger opts = None
        /\ run opts w = Returned None w').
Proof.
  unfold Execute, bind, slog, ret.
  destruct (parseFlags args) as [opts0 [e|]] eqn:Hp.
  { intros H. injection H as <- _. split; [now right|]. split.
    - discriminate.
    - intros [o0 [o [H1 _]]]. discriminate. }
  destruct (setLogLevel opts0) as [opts [e|]] eqn:Hl.
  { intros H. injection H as <- _. split; [now right|]. split.
    - discriminate.
    - intros [o0 [o [H1 [H2 _]]]]. injection H1 as <-.
      rewrite Hl in H2. discriminate. }
  destruct (setupLogger opts) as [e|] eqn:Hg.
  { intros H. injection H as <- _. split; [now right|]. split.
    - discriminate.
    - intros [o0 [o [H1 [H2 [H3 _]]]]]. injection H1 as <-.
      rewrite Hl in H2. injection H2 as <-. rewrite Hg in H3.
      discriminate. }
  destruct (run opts w) as [[e|] w1|msg w1] eqn:Hr.
  - intros H. injection H as <- _. split; [now right|]. split.
    + discriminate.
    + intros [o0 [o [H1 [H2 [H3 H4]]]]]. injection H1 as <-.
      rewrite Hl in H2. injection H2 as <-. rewrite Hr in H4.
      discriminate.
  - intros H. injection H as <- <-. split; [now left|]. split.
    + intros _. now exists opts0, opts.
    + reflexivity.
  - discriminate.
Qed.

(* ================================================================= *)
(** ** More on the scanner and the sniffer *)

Lemma addTrace_app (t1 t2 : list Event) (w : World) :
  addTrace t2 (addTrace t1 w) = addTrace (t1 ++ t2) w.
Proof.
  unfold addTrace. cbn [fs trace]. now rewrite app_assoc.
Qed.

Lemma addTrace_nil (w : World) : addTrace [] w = w.
Proof.
  unfold addTrace. rewrite app_nil_r. now destruct w.
Qed.

Lemma walkNames_trace (path : string) (es : list (string * node)) :
  Forall (fun e =>
            listableAll (snd e) = true ->
            forall path zipFiles w,
              walk visit path (snd e) zipFiles w
              = Returned (zipFiles ++ zipPaths (fs w) path (snd e), None)
                  (addTrace (scanEvents (fs w) path (snd e)) w)) es ->
  forallb (fun e => listableAll (snd e)) es = true ->
  forall zipFiles w,
    walkNames (walk visit) path es zipFiles w
    = Returned
        (zipFiles ++ zipPaths (fs w) path (Directory true es), None)
        (addTrace (scanEvents (fs w) path (Directory true es)) w).
Proof.
  induction 1 as [|[name child] es Hchild _ IH]; intros Hall zipFiles w.
  - unfold zipPaths. cbn. now rewrite app_nil_r, addTrace_nil.
  - cbn [forallb snd] in Hall. apply andb_true_iff in Hall.
    destruct Hall as [Hc Hes]. cbn [snd] in Hchild.
    cbn [walkNames]. unfold bind at 1. rewrite (Hchild Hc).
    rewrite (IH Hes). rewrite addTrace_app.
    change (fs (addTrace (scanEvents (fs w) (Join [path; name]) child) w))
      with (fs w).
    unfold zipPaths. cbn [filePaths scanEvents flat_map fst snd].
    now rewrite filter_app, app_assoc.
Qed.

Lemma walk_trace (n : node) :
  listableAll n = true ->
  forall path zipFiles w,
    walk visit path n zipFiles w
    = Returned (zipFiles ++ zipPaths (fs w) path n, None)
        (addTrace (scanEvents (fs w) path n) w).
Proof.
  induction n as [a d|l es IH] using node_ind2; intros Hall path zipFiles w.
  - cbn [walk infoOf]. rewrite visit_file. unfold zipPaths.
    cbn [filePaths filter scanEvents].
    destruct (isZip (sniff (fs w) path)); [reflexivity|].
    now rewrite app_nil_r.
  - cbn [listableAll] in Hall. apply andb_true_iff in Hall.
    destruct Hall as [-> Hes].
    cbn [walk infoOf]. unfold bind at 1. rewrite visit_dir.
    cbn [isSome orb].
    rewrite (walkNames_trace path es IH Hes). reflexivity.
Qed.

Lemma scanEvents_opens (t : node) (n : node) :
  forall path,
    filter isOpen (scanEvents t path n) = map OsOpen (filePaths path n).
Proof.
  induction n as [a d|l es IH] using node_ind2; intros path.
  - cbn [scanEvents filePaths filter isOpen map]. f_equal.
    unfold sniffLog. destruct (snd (sniff t path)); reflexivity.
  - cbn [scanEvents filePaths].
    induction IH as [|[name child] es Hchild _ IHes]; [reflexivity|].
    cbn [flat_map fst snd]. rewrite filter_app, map_app.
    cbn [snd] in Hchild. now rewrite Hchild, IHes.
Qed.

(** X7: the scan never panics and never changes the tree, whatever the
    tree and whatever the directory it is given: the callback is never
    called with neither an error nor the [FileInfo] it dereferences. *)
Theorem scan_never_panics_and_changes_nothing (directory : string)
  (w : World) :
  exists zipFiles err w',
    findZipFiles directory w = Returned (zipFiles, err) w'
    /\ fs w' = fs w
    /\ exists t, trace w' = trace w ++ t
                 /\ existsb extractionEvent t = false.
Proof.
  destruct (findZipFiles_quiet directory w) as [[zs err] [w' [E [Hfs Ht]]]].
  now exists zs, err, w'.
Qed.

(** X8: a scan of a tree whose directories can all be listed opens every
    regular file of the tree once, in the order of the walk, and opens
    nothing else: no directory is opened and no file twice.  Beside the
    call of the walk and these opens the scan only logs the errors of the
    sniffer. *)
Theorem scan_opens_every_regular_file_once (directory : string) (n : node)
  (w : World) :
  lookup (fs w) (elements directory) = Ok n ->
  listableAll n = true ->
  findZipFiles directory w
    = Returned (zipPaths (fs w) directory n, None)
        (addTrace (FilepathWalk directory :: scanEvents (fs w) directory n)
           w)
  /\ filter isOpen (scanEvents (fs w) directory n)
     = map OsOpen (filePaths directory n)
  /\ forallb (fun e => match e with
                       | OsOpen _ | Slog LevelError _ _ => true
                       | _ => false
                       end) (scanEvents (fs w) directory n) = true.
Proof.
  intros Hl Hall. split; [|split].
  - unfold findZipFiles, Walk, bind. rewrite Hl.
    rewrite (walk_trace n Hall). cbn [fs emit app].
    unfold ret. f_equal. unfold emit, addTrace. cbn [fs trace].
    now rewrite <- app_assoc.
  - apply scanEvents_opens.
  - clear Hl Hall. generalize directory as path.
    induction n as [a d|l es IH] using node_ind2; intros path.
    + cbn [scanEvents forallb]. unfold sniffLog.
      destruct (snd (sniff (fs w) path)); reflexivity.
    + cbn [scanEvents].
      induction IH as [|[name child] es Hchild _ IHes]; [reflexivity|].
      cbn [flat_map fst snd]. rewrite forallb_app.
      cbn [snd] in Hchild. now rewrite Hchild, IHes.
Qed.

(** X9: when the data directory names nothing in the tree, the scan fails
    on its first step, and the run returns the error of the system, wrapped
    twice by the scanner and once by [run], after two events: its first
    record and the call of the walk. *)
Theorem missing_data_directory_fails_the_run (opts : Options) (w : World)
  (e : error) :
  DataDirectory opts <> "" ->
  lookup (fs w) (elements (DataDirectory opts)) = Err e ->
  run opts w
    = Returned
        (Some (Errorf "error finding zip files"
                 (Errorf ("error walking " ++ DataDirectory opts)
                    (Errorf ("error walking " ++ DataDirectory opts) e))))
        (addTrace [startLog opts; FilepathWalk (DataDirectory opts)] w).
Proof.
  intros Hd Hl.
  pose proof (findZipFiles_missing (DataDirectory opts)
                (emit (startLog opts) w) e Hl) as Hscan.
  rewrite (run_scan_failed opts w _ _ _ Hd Hscan).
  unfold emit, addTrace. cbn [fs trace]. now rewrite <- app_assoc.
Qed.

(** X16: the sniffer looks at no byte behind the first 512.  Two files
    that are not empty and agree on their first 512 bytes, whatever comes
    after, get the same content type, and the buffer that is classified
    always has 512 bytes. *)
Theorem sniffer_reads_only_the_first_512_bytes (path1 path2 : string)
  (data1 data2 : list byte) (w : World) :
  lookup (fs w) (elements path1) = Ok (File true data1) ->
  lookup (fs w) (elements path2) = Ok (File true data2) ->
  data1 <> [] ->
  firstn 512 data1 = firstn 512 data2 ->
  List.length (sniffBuffer data1) = 512
  /\ exists contentType,
       getFileContentType path1 w
         = Returned (contentType, None) (emit (OsOpen path1) w)
       /\ getFileContentType path2 w
          = Returned (contentType, None) (emit (OsOpen path2) w).
Proof.
  intros H1 H2 Hne Hpre.
  assert (Hlen : forall d : list byte, List.length (sniffBuffer d) = 512).
  { intros d. unfold sniffBuffer.
    rewrite length_app, length_firstn, repeat_length. lia. }
  assert (Hbuf : sniffBuffer data1 = sniffBuffer data2).
  { unfold sniffBuffer. rewrite Hpre. f_equal. f_equal.
    apply (f_equal (@List.length byte)) in Hpre.
    rewrite !length_firstn in Hpre. lia. }
  assert (Hne2 : data2 <> []).
  { intros ->. destruct data1; [now apply Hne | discriminate]. }
  split; [apply Hlen|].
  exists (DetectContentType (sniffBuffer data1)).
  rewrite !getFileContentType_eq. unfold sniff, Open. rewrite H1, H2.
  destruct data1 as [|b1 d1]; [contradiction|].
  destruct data2 as [|b2 d2]; [contradiction|].
  now rewrite Hbuf.
Qed.

(** X17: a run whose scan finds only archives whose destinations are there
    returns [nil], leaves the tree as it is and extracts nothing: it
    creates no directory, opens no archive and writes no file. *)
Theorem run_over_expanded_archives_changes_nothing (opts : Options)
  (w w1 : World) (zipFiles : list string) :
  DataDirectory opts <> "" ->
  findZipFiles (DataDirectory opts) (emit (startLog opts) w)
    = Returned (zipFiles, None) w1 ->
  (forall z, In z zipFiles ->
     exists d info, getExpandedPath z = Value d
                    /\ Stat (fs w) d = Ok info) ->
  exists w',
    run opts w = Returned None w'
    /\ fs w' = fs w
    /\ exists t, trace w' = trace w ++ t
                 /\ existsb extractionEvent t = false.
Proof.
  intros Hd Hscan Hall.
  destruct (findZipFiles_quiet (DataDirectory opts)
              (emit (startLog opts) w)) as [a [w1' [E Q]]].
  rewrite Hscan in E. injection E as _ <-.
  rewrite (run_scan_ok opts w w1 zipFiles Hd Hscan).
  destruct (forRange_all_present zipFiles (emit (foundLog zipFiles) w1))
    as [w' [EF QF]].
  { intros z Hin. destruct (Hall z Hin) as [d [info [Hv Hs]]].
    exists d, info. split; [exact Hv|].
    destruct Q as [Hfs _]. cbn [fs emit]. rewrite Hfs. exact Hs. }
  rewrite EF. exists w'. split; [reflexivity|].
  assert (Qall : quiet w w').
  { eapply quiet_trans; [apply (quiet_emit (startLog opts)); reflexivity|].
    eapply quiet_trans; [exact Q|].
    eapply quiet_trans; [|exact QF]. now apply quiet_emit. }
  destruct Qall as [Hfs Ht]. split; assumption.
Qed.


(* ================================================================= *)
(** ** What a pass over the archives leaves behind *)

Lemma expandArchive_outcome (zipFile : string) (w w1 : World) :
  expandArchive zipFile w = Returned tt w1 ->
  present (fs w1) (elements (destinationOf zipFile))
  \/ exists e, In (mkdirLog (destinationOf zipFile) e) (trace w1).
Proof.
  unfold destinationOf.
  destruct (getExpandedPath zipFile) as [d|msg] eqn:Hd.
  2:{ rewrite (expandArchive_panics zipFile msg w Hd). discriminate. }
  destruct (Stat (fs w) d) as [info|e0] eqn:Hs.
  - rewrite (expandArchive_skips zipFile d info w Hd Hs).
    intros H. injection H as <-. left. unfold Stat in Hs. cbn [fs addTrace].
    destruct (lookup (fs w) (elements d)) as [m|] eqn:Hl; [|discriminate].
    now exists m.
  - destruct (MkdirAll (fs w) d) as [created|e1] eqn:Hm.
    + unfold expandArchive, bind, liftGo, os_Stat, os_MkdirAll.
      rewrite Hd, Hs. cbn [fs emit]. rewrite Hm.
      destruct (extractZipFile_extends zipFile d
                  (setFs created
                     (emit (OsMkdirAll d) (emit (OsStat d) w))))
        as [r [w2 [E [Hg _]]]].
      rewrite E.
      assert (Hp : present (fs w2) (elements d)).
      { apply Hg. cbn [fs setFs].
        destruct (mkdirAll_is_dir _ _ _ Hm) as [l [es Hl]].
        now exists (Directory l es). }
      destruct r as [e2|]; intros H; injection H as <-; left; exact Hp.
    + unfold expandArchive, bind, liftGo, os_Stat, os_MkdirAll.
      rewrite Hd, Hs. cbn [fs emit]. rewrite Hm. unfold slog.
      intros H. injection H as <-. right. exists e1.
      unfold emit, mkdirLog. cbn [trace]. apply in_or_app. right.
      now left.
Qed.

Lemma forRange_outcome (zipFiles : list string) :
  forall w w',
    forRange zipFiles expandArchive w = Returned tt w' ->
    forall z, In z zipFiles ->
      present (fs w') (elements (destinationOf z))
      \/ exists e, In (mkdirLog (destinationOf z) e) (trace w').
Proof.
  induction zipFiles as [|x rest IH]; intros w w' H z Hin; [contradiction|].
  simpl in H. unfold bind in H.
  destruct (expandArchive x w) as [[] w1|msg w1] eqn:E; [|discriminate].
  destruct Hin as [<-|Hin].
  - pose proof (forRange_extends rest w1) as X. rewrite H in X.
    destruct X as [Hg [t Ht]]. cbn [worldOf] in *.
    destruct (expandArchive_outcome x w w1 E) as [Hp|[e Hlog]].
    + left. now apply Hg.
    + right. exists e. rewrite Ht. apply in_or_app. now left.
  - now apply (IH w1 w' H).
Qed.

(** X19: after a run that returned [nil], every archive the scan found has
    its destination in the tree, or the log has a record, with the error
    of the call, that the destination could not be created: no archive is
    passed over in silence. *)
Theorem run_accounts_for_every_archive (opts : Options) (w w1 w' : World)
  (zipFiles : list string) :
  DataDirectory opts <> "" ->
  findZipFiles (DataDirectory opts) (emit (startLog opts) w)
    = Returned (zipFiles, None) w1 ->
  run opts w = Returned None w' ->
  forall z, In z zipFiles ->
    present (fs w') (elements (destinationOf z))
    \/ exists e, In (mkdirLog (destinationOf z) e) (trace w').
Proof.
  intros Hd Hscan Hrun z Hin.
  rewrite (run_scan_ok opts w w1 zipFiles Hd Hscan) in Hrun.
  destruct (forRange zipFiles expandArchive (emit (foundLog zipFiles) w1))
    as [[] w2|msg w2] eqn:EF; [|discriminate].
  injection Hrun as <-.
  now apply (forRange_outcome zipFiles _ _ EF).
Qed.

(** X20: when the scan succeeds and every archive it found has a base name
    of four bytes or more, the run returns [nil] and [Execute] returns 0
    whatever the creations of directories and the extractions returned,
    and the destinations that were checked are those of the archives, each
    once and in the order of the list. *)
Theorem run_goes_through_the_whole_list (args : list string)
  (opts0 opts : Options) (w w1 : World) (zipFiles : list string) :
  parseFlags args = (opts0, None) ->
  setLogLevel opts0 = (opts, None) ->
  setupLogger opts = None ->
  DataDirectory opts <> "" ->
  findZipFiles (DataDirectory opts) (emit (startLog opts) w)
    = Returned (zipFiles, None) w1 ->
  (forall z, In z zipFiles -> 4 <= String.length (Base z)) ->
  exists w',
    run opts w = Returned None w'
    /\ Execute args w = Returned 0%Z w'
    /\ filter isStat (trace w')
       = filter isStat (trace w1)
           ++ map (fun z => OsStat (destinationOf z)) zipFiles.
Proof.
  intros Hp Hl Hg Hd Hscan Hlong.
  destruct (forRange_takes_all_in_order zipFiles Hlong
              (emit (foundLog zipFiles) w1)) as [w' [E F]].
  assert (Hrun : run opts w = Returned None w').
  { rewrite (run_scan_ok opts w w1 zipFiles Hd Hscan). now rewrite E. }
  exists w'. split; [exact Hrun|]. split.
  - unfold Execute, bind. rewrite Hp, Hl, Hg, Hrun. reflexivity.
  - rewrite F. unfold emit. cbn [trace]. rewrite filter_app.
    cbn [filter foundLog isStat]. now rewrite app_nil_r.
Qed.

(* ================================================================= *)
(** ** The paths the program hands to the system are not empty *)

Lemma cleanElems_not_empty (rooted : bool) (elems : list string) :
  forall out,
    Forall (fun e => e <> "") out ->
    Forall (fun e => e <> "") (cleanElems rooted out elems).
Proof.
  induction elems as [|e rest IH]; intros out Hout.
  - simpl. apply Forall_rev. exact Hout.
  - simpl. destruct (String.eqb_spec e "") as [->|Hne].
    + simpl. now apply IH.
    + simpl. destruct (String.eqb e "."); [now apply IH|].
      destruct (String.eqb e "..").
      * destruct out as [|top below].
        -- destruct rooted; apply IH; [exact Hout | now constructor].
        -- destruct (String.eqb top "..").
           ++ apply IH. now constructor.
           ++ apply IH. now inversion Hout.
      * apply IH. now constructor.
Qed.

Lemma Clean_not_empty (path : string) : Clean path <> "".
Proof.
  unfold Clean. destruct path as [|c s]; [discriminate|].
  destruct (isSlash c); [discriminate|].
  pose proof (cleanElems_not_empty false (splitSlash (String c s)) []
                (Forall_nil _)) as H.
  destruct (cleanElems false [] (splitSlash (String c s))) as [|e rest];
    [discriminate|].
  simpl. destruct rest as [|e2 rest].
  - now inversion H.
  - destruct e; discriminate.
Qed.

Lemma Join_not_empty (elem : list string) :
  (exists e, In e elem /\ e <> "") -> Join elem <> "".
Proof.
  induction elem as [|x rest IH]; intros [e [Hin Hne]]; [contradiction|].
  simpl. destruct (String.eqb_spec x "") as [->|Hx].
  - apply IH. destruct Hin as [<-|Hin]; [contradiction|]. now exists e.
  - apply Clean_not_empty.
Qed.

(** X21: the paths the program hands to the system are never empty: the
    destination the resolver returns is not, the path an archive member is
    written to is not, and the path of an entry of a directory that the
    walk visits is not. *)
Theorem program_paths_are_not_empty :
  (forall zipFilePath destDir,
     getExpandedPath zipFilePath = Value destDir -> destDir <> "")
  /\ (forall destDir (file : ZipFile),
        destDir <> "" -> Join [destDir; Name file] <> "")
  /\ (forall path name : string,
        path <> "" -> Join [path; name] <> "").
Proof.
  split; [|split].
  - intros p d H. unfold getExpandedPath in H.
    destruct (sliceTo (Base p) (len (Base p) - 4)) as [stem|msg];
      [|discriminate].
    assert (Hj : Join [Dir p; "expanded"; stem] <> "").
    { apply Join_not_empty.
      exists "expanded". split; [right; left; reflexivity | discriminate]. }
    intros ->. apply Hj. injection H as H. exact H.
  - intros d f Hd. apply Join_not_empty. exists d. split; [now left|exact Hd].
  - intros p n Hp. apply Join_not_empty. exists p. split; [now left|exact Hp].
Qed.

End Downcan.

(* ================================================================= *)
(** ** The theorems on the sample trees *)

Import Samples.

(** [foo/bar.zip] goes to [foo/expanded/bar]. *)
Lemma getExpandedPath_of_zip_name_witness :
  getExpandedPath "foo/bar.zip" = Value "foo/expanded/bar".
Proof.
  apply (getExpandedPath_of_zip_name "foo/bar.zip" "bar"). reflexivity.
Defined.

(** The archive [d/a]: the resolver panics, and so does the run over [d],
    whose scan found it. *)
Lemma short_base_name_panics_witness :
  getExpandedPath "d/a" = Panic sliceBounds
  /\ exists w',
       run sniffSample zipSample (optsFor "d") (world treeShort)
         = Panicked sliceBounds w'.
Proof.
  assert (Hshort : String.length (Base "d/a") < 4) by (simpl; lia).
  destruct (short_base_name_panics sniffSample zipSample "d/a" Hshort)
    as [Hpanic Hrun].
  split; [exact Hpanic|].
  eapply (Hrun (optsFor "d") (world treeShort) ["d/a"; "d/b.zip"]).
  - discriminate.
  - vm_compute. reflexivity.
  - left. reflexivity.
Defined.


(** A regular file stands at [foo/expanded/bar]: the archive is skipped all
    the same. *)
Lemma any_existing_object_is_skipped_witness :
  expandArchive zipSample "foo/bar.zip" (world treeFileInTheWay)
    = Returned tt
        (addTrace [OsStat "foo/expanded/bar";
                   skipLog "foo/bar.zip" "foo/expanded/bar"]
           (world treeFileInTheWay))
  /\ existsb extractionEvent
       [OsStat "foo/expanded/bar"; skipLog "foo/bar.zip" "foo/expanded/bar"]
     = false.
Proof.
  apply (any_existing_object_is_skipped zipSample "foo/bar.zip"
           "foo/expanded/bar" (File true (bytes "not a directory"))
           (world treeFileInTheWay)); reflexivity.
Defined.

(** [foo/data.bin] holds an archive: the callback appends it. *)
Lemma visit_appends_iff_sniffed_zip_witness :
  exists w',
    visit sniffSample "foo/data.bin" (Some {| IsDir := false |}) None []
      (world treeIn)
    = Returned (["foo/data.bin"], None) w'.
Proof.
  destruct (visit_appends_iff_sniffed_zip sniffSample "foo/data.bin" []
              (world treeIn) "application/zip" None
              (emit (OsOpen "foo/data.bin") (world treeIn)))
    as [zipFiles' [w' [E [_ [Hyes _]]]]].
  - vm_compute. reflexivity.
  - exists w'. rewrite E, (Hyes eq_refl). reflexivity.
Defined.

(** [foo/archive.zip] holds plain text: the callback leaves it out. *)
Example archive_zip_with_text_is_left_out :
  exists w',
    visit sniffSample "foo/archive.zip" (Some {| IsDir := false |}) None []
      (world treeIn)
    = Returned ([], None) w'.
Proof.
  eexists. vm_compute. reflexivity.
Qed.

(** The scan of [foo]: the four files that hold an archive, whatever their
    names, and the unreadable file and the empty one left out with a log
    record each. *)
Example scan_of_foo :
  exists w',
    findZipFiles sniffSample "foo" (world treeIn)
    = Returned (["foo/bar.zip"; "foo/baz.zip"; "foo/broken.zip";
                 "foo/data.bin"], None) w'
    /\ filter (fun e => match e with Slog _ _ _ => true | _ => false end)
         (trace w')
       = [Slog LevelError "error getting content type"
            [("path", AString "foo/empty");
             ("error", AError (Errorf "error reading foo/empty" EOF))];
          Slog LevelError "error getting content type"
            [("path", AString "foo/secret");
             ("error", AError (Errorf "error opening foo/secret" EACCES))]].
Proof.
  eexists. split; vm_compute; reflexivity.
Qed.

(** C6 does not hold as stated.  The empty file [foo/empty] can be opened
    and read, and the sniffer returns an error for it and no content type.
    For [foo/hello.txt], five bytes of text, the sniffer returns the type
    of binary data, which is the type of the padded buffer, where the five
    bytes alone are text. *)
Lemma sniffer_pads_and_rejects_empty :
  getFileContentType sniffSample "foo/empty" (world treeIn)
    = Returned ("", Some (Errorf "error reading foo/empty" EOF))
        (emit (OsOpen "foo/empty") (world treeIn))
  /\ getFileContentType sniffSample "foo/hello.txt" (world treeIn)
     = Returned ("application/octet-stream", None)
         (emit (OsOpen "foo/hello.txt") (world treeIn))
  /\ sniffSample (firstn 512 (bytes "hello")) = "text/plain; charset=utf-8".
Proof.
  repeat split; vm_compute; reflexivity.
Qed.

(** The five bytes of [foo/hello.txt] are classified with 507 zero bytes
    behind them. *)
Lemma getFileContentType_classifies_padded_buffer_witness :
  getFileContentType sniffSample "foo/hello.txt" (world treeIn)
    = Returned (sniffSample (bytes "hello" ++ repeat x00 507), None)
        (emit (OsOpen "foo/hello.txt") (world treeIn)).
Proof.
  destruct (getFileContentType_classifies_padded_buffer sniffSample
              "foo/hello.txt" (world treeIn)) as [Hfull _].
  apply (Hfull (bytes "hello")); [discriminate | reflexivity].
Defined.

(** [foo/locked] cannot be listed: the run over [foo] fails, [Execute]
    returns 1, and [foo/bar.zip] is not expanded. *)
Lemma scan_failure_semantics_witness :
  exists w',
    Execute sniffSample zipSample flagsSample setLogLevelSample
      setupLoggerSample ["--data-dir"; "foo"] (world treeLocked)
    = Returned 1%Z w'
    /\ quiet (world treeLocked) w'.
Proof.
  destruct (scan_failure_semantics sniffSample zipSample flagsSample
              setLogLevelSample setupLoggerSample)
    as [_ [_ [_ [_ Hexec]]]].
  eapply (Hexec ["--data-dir"; "foo"] (optsFor "foo") (optsFor "foo")
            (world treeLocked)).
  - reflexivity.
  - reflexivity.
  - reflexivity.
  - discriminate.
  - vm_compute. reflexivity.
Defined.

(** C1 does not hold as stated.  Into the empty directory [out], the
    archive with the marker of [a/] first is extracted in full; the archive
    with the same members and [a/b.txt] before the marker fails at
    [a/b.txt], whose directory is not there, and leaves [out] empty. *)
Lemma extraction_depends_on_entry_order :
  (exists w1,
     extractZipFile zipSample "foo/bar.zip" "out" (world treeIn)
       = Returned None w1
     /\ lookup (fs w1) ["out"; "a"; "b.txt"] = Ok (File true (bytes "hello"))
     /\ lookup (fs w1) ["out"; "c.txt"] = Ok (File true (bytes "world")))
  /\ (exists w2,
        extractZipFile zipSample "foo/baz.zip" "out" (world treeIn)
          = Returned (Some (Errorf "error creating out/a/b.txt" ENOENT)) w2
        /\ lookup (fs w2) ["out"] = Ok (Directory true [])).
Proof.
  split; eexists; repeat split; vm_compute; reflexivity.
Qed.

(** The member [c.txt] into [out], which is there. *)
Lemma extractEntry_writes_under_existing_parent_witness :
  exists w',
    extractEntry "foo/bar.zip" "out" (fileEntry "c.txt" "world")
      (world treeIn) = Returned None w'
    /\ lookup (fs w') (elements "out/c.txt") = Ok (File true (bytes "world")).
Proof.
  destruct (extractEntry_writes_under_existing_parent "foo/bar.zip" "out"
              (fileEntry "c.txt" "world") (bytes "world") (world treeIn)
              ["out"] "c.txt" eq_refl eq_refl eq_refl) as [Hstore _].
  apply (Hstore true []); [reflexivity | left; reflexivity].
Defined.

(** [foo/broken.zip] fails after its first bytes: the orchestrator logs
    the error and [x.txt] stays in [foo/expanded/broken] with the bytes
    that were copied.  After any number of later runs, the next run over
    [foo] does not open the archive. *)
Lemma failed_extraction_is_never_retried_witness :
  exists err w3,
    expandArchive zipSample "foo/broken.zip" (world treeBroken)
      = Returned tt w3
    /\ In (extractLog "foo/broken.zip" err) (trace w3)
    /\ lookup (fs w3) ["foo"; "expanded"; "broken"; "x.txt"]
       = Ok (File true (bytes "par"))
    /\ forall later,
         afterRuns sniffSample zipSample w3 later ->
         present (fs later) (elements "foo/expanded/broken")
         /\ notOpened "foo/broken.zip" later
              (worldOf (run sniffSample zipSample (optsFor "foo") later)).
Proof.
  edestruct (failed_extraction_is_never_retried sniffSample zipSample
               "foo/broken.zip" "foo/expanded/broken" (world treeBroken))
    as [Hfirst [_ Hlater]].
  - reflexivity.
  - vm_compute. reflexivity.
  - vm_compute. reflexivity.
  - vm_compute. reflexivity.
  - eexists _, _. split; [exact Hfirst|].
    split; [vm_compute; tauto|].
    split; [vm_compute; reflexivity|].
    intros later H.
    destruct (Hlater _ later (extends_refl _) H) as [_ [Hp Hrun]].
    split; [exact Hp|]. destruct (Hrun (optsFor "foo")) as [Hclosed _].
    exact Hclosed.
Defined.

(** C3, at the input where the code leaves it: the scan of [d] succeeds and
    finds [d/a] and [d/b.zip]; the run then panics at [d/a], [d/b.zip] is
    never looked at, no result is returned and [Execute] returns no exit
    status. *)
Theorem run_crashes_after_successful_scan :
  (exists w1,
     findZipFiles sniffSample "d" (emit (startLog (optsFor "d"))
                                     (world treeShort))
       = Returned (["d/a"; "d/b.zip"], None) w1)
  /\ (exists w',
        run sniffSample zipSample (optsFor "d") (world treeShort)
          = Panicked sliceBounds w'
        /\ fs w' = treeShort
        /\ existsb extractionEvent (trace w') = false)
  /\ (exists w',
        Execute sniffSample zipSample flagsSample setLogLevelSample
          setupLoggerSample ["--data-dir"; "d"] (world treeShort)
        = Panicked sliceBounds w').
Proof.
  repeat split; eexists; repeat split; vm_compute; reflexivity.
Qed.

(** C7 on a sample: [foo/locked] cannot be listed; the run fails,
    [Execute] returns 1 and [foo/bar.zip] is not expanded. *)
Example locked_directory_fails_the_run :
  exists w',
    Execute sniffSample zipSample flagsSample setLogLevelSample
      setupLoggerSample ["--data-dir"; "foo"] (world treeLocked)
    = Returned 1%Z w'
    /\ fs w' = treeLocked
    /\ existsb extractionEvent (trace w') = false.
Proof.
  eexists. repeat split; vm_compute; reflexivity.
Qed.

(** A run over [foo] where one archive fails: the others are expanded and
    the run returns [nil]. *)
Example run_goes_on_after_a_failure :
  exists w',
    run sniffSample zipSample (optsFor "foo") (world treeIn)
      = Returned None w'
    /\ lookup (fs w') (elements "foo/expanded/bar/a/b.txt")
       = Ok (File true (bytes "hello"))
    /\ lookup (fs w') (elements "foo/expanded/baz") = Ok (Directory true [])
    /\ lookup (fs w') (elements "foo/expanded/data/c.txt")
       = Ok (File true (bytes "world")).
Proof.
  eexists. repeat split; vm_compute; reflexivity.
Qed.

(* ================================================================= *)
(** ** More theorems on the sample trees *)

(** [foo/data.bin] goes to [foo/expanded/data]. *)
Lemma getExpandedPath_strips_any_four_bytes_witness :
  getExpandedPath "foo/data.bin" = Value "foo/expanded/data".
Proof.
  apply (getExpandedPath_strips_any_four_bytes "foo/data.bin" "data" ".bin");
    reflexivity.
Defined.

(** [foo/bar.tgz] is not unpacked after [foo/bar.zip]. *)
Lemma same_stem_archives_share_a_destination_witness :
  getExpandedPath "foo/bar.zip" = getExpandedPath "foo/bar.tgz"
  /\ exists w1 w2 t,
       expandArchive zipSample "foo/bar.zip" (world treeTwins)
         = Returned tt w1
       /\ expandArchive zipSample "foo/bar.tgz" w1 = Returned tt w2
       /\ fs w2 = fs w1
       /\ trace w2 = trace w1 ++ t
       /\ existsb unpackEvent t = false.
Proof.
  apply (same_stem_archives_share_a_destination zipSample "foo/bar.zip"
           "foo/bar.tgz" "bar" ".zip" ".tgz" (world treeTwins));
    reflexivity.
Defined.

Lemma archive_is_not_unpacked_twice_witness :
  exists w1 w2 t,
    expandArchive zipSample "foo/bar.zip" (world treeIn) = Returned tt w1
    /\ expandArchive zipSample "foo/bar.zip" w1 = Returned tt w2
    /\ fs w2 = fs w1
    /\ trace w2 = trace w1 ++ t
    /\ existsb unpackEvent t = false.
Proof.
  apply (archive_is_not_unpacked_twice zipSample "foo/bar.zip"
           "foo/expanded/bar" (world treeIn)).
  reflexivity.
Defined.

(** The run over [d] panics: its scan found [d/a]. *)
Lemma run_panics_only_on_short_names_witness :
  exists zipFiles w1 z,
    findZipFiles sniffSample "d" (emit (startLog (optsFor "d"))
                                    (world treeShort))
      = Returned (zipFiles, None) w1
    /\ In z zipFiles
    /\ String.length (Base z) < 4.
Proof.
  edestruct (run_panics_only_on_short_names sniffSample zipSample
               (optsFor "d") (world treeShort)) as [_ H].
  - vm_compute. reflexivity.
  - exact H.
Defined.

(** [foo/expanded] is a regular file: [foo/bar.zip] is not opened. *)
Lemma failed_mkdir_is_logged_and_skipped_witness :
  expandArchive zipSample "foo/bar.zip" (world treeBlocked)
    = Returned tt
        (addTrace [OsStat "foo/expanded/bar"; OsMkdirAll "foo/expanded/bar";
                   mkdirLog "foo/expanded/bar" ENOTDIR]
           (world treeBlocked)).
Proof.
  apply (failed_mkdir_is_logged_and_skipped zipSample "foo/bar.zip"
           "foo/expanded/bar" (world treeBlocked) ENOTDIR ENOTDIR);
    reflexivity.
Defined.

(** The status of a run over [foo] where everything is expanded is 0. *)
Lemma Execute_exit_status_witness :
  exists w',
    Execute sniffSample zipSample flagsSample setLogLevelSample
      setupLoggerSample ["--data-dir"; "foo"] (world treeDone)
    = Returned 0%Z w'
    /\ exists opts0 opts,
         parseFlags flagsSample ["--data-dir"; "foo"] = (opts0, None)
         /\ setLogLevelSample opts0 = (opts, None)
         /\ setupLoggerSample opts = None
         /\ run sniffSample zipSample opts (world treeDone)
            = Returned None w'.
Proof.
  eexists. split; [vm_compute; reflexivity|].
  apply (Execute_exit_status sniffSample zipSample flagsSample
           setLogLevelSample setupLoggerSample ["--data-dir"; "foo"]
           (world treeDone) 0%Z).
  - vm_compute. reflexivity.
  - reflexivity.
Defined.

(** The scan of [foo] opens its eight files, each once. *)
Lemma scan_opens_every_regular_file_once_witness :
  exists w',
    findZipFiles sniffSample "foo" (world treeIn)
      = Returned (["foo/bar.zip"; "foo/baz.zip"; "foo/broken.zip";
                   "foo/data.bin"], None) w'
    /\ filter isOpen (trace w')
       = map OsOpen ["foo/archive.zip"; "foo/bar.zip"; "foo/baz.zip";
                     "foo/broken.zip"; "foo/data.bin"; "foo/empty";
                     "foo/hello.txt"; "foo/secret"].
Proof.
  destruct (scan_opens_every_regular_file_once sniffSample "foo"
              (Directory true
                 [("archive.zip", File true (bytes "plain text"));
                  ("bar.zip", File true archive1);
                  ("baz.zip", File true archive2);
                  ("broken.zip", File true archive3);
                  ("data.bin", File true archive1);
                  ("empty", File true []);
                  ("hello.txt", File true (bytes "hello"));
                  ("secret", File false (bytes "x"))])
              (world treeIn) eq_refl eq_refl) as [E _].
  eexists. split; [rewrite E; vm_compute; reflexivity|].
  vm_compute. reflexivity.
Defined.

(** There is no [nowhere] in the tree. *)
Lemma missing_data_directory_fails_the_run_witness :
  run sniffSample zipSample (optsFor "nowhere") (world treeIn)
    = Returned
        (Some (Errorf "error finding zip files"
                 (Errorf "error walking nowhere"
                    (Errorf "error walking nowhere" ENOENT))))
        (addTrace [startLog (optsFor "nowhere"); FilepathWalk "nowhere"]
           (world treeIn)).
Proof.
  apply (missing_data_directory_fails_the_run sniffSample zipSample
           (optsFor "nowhere") (world treeIn) ENOENT).
  - discriminate.
  - reflexivity.
Defined.

(** [a/b.txt] of [foo/bar.zip], extracted into [out]. *)
Lemma extracted_files_hold_their_bytes_witness :
  exists w' data,
    extractZipFile zipSample "foo/bar.zip" "out" (world treeIn)
      = Returned None w'
    /\ data = bytes "hello"
    /\ lookup (fs w') ["out"; "a"; "b.txt"] = Ok (File true data).
Proof.
  edestruct (extracted_files_hold_their_bytes zipSample "foo/bar.zip" "out"
               [dirEntry "a/"] [fileEntry "c.txt" "world"]
               (fileEntry "a/b.txt" "hello") (world treeIn))
    as [data [Hp Hl]].
  - reflexivity.
  - vm_compute. reflexivity.
  - reflexivity.
  - intros g [<-|[]] _. vm_compute. discriminate.
  - eexists _, data. split; [vm_compute; reflexivity|].
    split; [|exact Hl]. cbn in Hp. now injection Hp.
Defined.

(** [a/] of [foo/bar.zip], extracted into [out]. *)
Lemma extracted_directories_are_there_witness :
  exists w' l es,
    extractZipFile zipSample "foo/bar.zip" "out" (world treeIn)
      = Returned None w'
    /\ lookup (fs w') ["out"; "a"] = Ok (Directory l es).
Proof.
  edestruct (extracted_directories_are_there zipSample "foo/bar.zip" "out"
               [] [fileEntry "a/b.txt" "hello"; fileEntry "c.txt" "world"]
               (dirEntry "a/") (world treeIn))
    as [l [es Hl]].
  - reflexivity.
  - vm_compute. reflexivity.
  - reflexivity.
  - eexists _, l, es. split; [vm_compute; reflexivity | exact Hl].
Defined.

(** [foo/baz.zip] into [out]: the first member fails, [c.txt] is not
    written. *)
Lemma extraction_stops_at_first_failure_witness :
  exists w2,
    extractZipFile zipSample "foo/baz.zip" "out" (world treeIn)
      = Returned (Some (Errorf "error creating out/a/b.txt" ENOENT)) w2
    /\ trace w2 = [ZipOpenReader "foo/baz.zip"; ZipFileOpen "a/b.txt";
                   OsCreate "out/a/b.txt"].
Proof.
  eexists. split.
  - apply (extraction_stops_at_first_failure zipSample "foo/baz.zip" "out"
             [] [dirEntry "a/"; fileEntry "c.txt" "world"]
             (fileEntry "a/b.txt" "hello") (world treeIn)
             (emit (ZipOpenReader "foo/baz.zip") (world treeIn))).
    + reflexivity.
    + reflexivity.
    + vm_compute. reflexivity.
  - reflexivity.
Defined.

(** The member of [foo/broken.zip] into [out]: three bytes stay. *)
Lemma failed_copy_leaves_partial_file_witness :
  exists w',
    extractEntry "foo/broken.zip" "out"
      {| Name := "x.txt"; entryIsDir := false;
         payload := Stream (bytes "par") (Some ErrChecksum) |}
      (world treeIn)
    = Returned (Some (Errorf "error copying out/x.txt" ErrChecksum)) w'
    /\ lookup (fs w') ["out"; "x.txt"] = Ok (File true (bytes "par")).
Proof.
  apply (failed_copy_leaves_partial_file "foo/broken.zip" "out"
           {| Name := "x.txt"; entryIsDir := false;
              payload := Stream (bytes "par") (Some ErrChecksum) |}
           (bytes "par") ErrChecksum (world treeIn) ["out"] "x.txt"
           true []); try reflexivity.
  left. reflexivity.
Defined.

(** [foo/bad.zip] is no archive: [foo/expanded/bad] stays, empty. *)
Lemma unreadable_archive_leaves_empty_destination_witness :
  exists w',
    expandArchive zipSample "foo/bad.zip" (world treeCorrupt)
      = Returned tt w'
    /\ lookup (fs w') ["foo"; "expanded"; "bad"] = Ok (Directory true [])
    /\ trace w'
       = [OsStat "foo/expanded/bad"; OsMkdirAll "foo/expanded/bad";
          ZipOpenReader "foo/bad.zip";
          extractLog "foo/bad.zip"
            (Errorf "error opening foo/bad.zip" ErrFormat)].
Proof.
  edestruct (unreadable_archive_leaves_empty_destination zipSample
               "foo/bad.zip" "foo/expanded/bad" (world treeCorrupt))
    as [w' [E [Hfs [Hl Ht]]]].
  - reflexivity.
  - vm_compute. reflexivity.
  - vm_compute. reflexivity.
  - vm_compute. reflexivity.
  - exists w'. split; [exact E|]. split; [rewrite Hfs; exact Hl | exact Ht].
Defined.

(** [foo/one] and [foo/two] differ only behind their 512th byte. *)
Lemma sniffer_reads_only_the_first_512_bytes_witness :
  exists contentType,
    getFileContentType sniffSample "foo/one" (world treeLong)
      = Returned (contentType, None) (emit (OsOpen "foo/one") (world treeLong))
    /\ getFileContentType sniffSample "foo/two" (world treeLong)
       = Returned (contentType, None)
           (emit (OsOpen "foo/two") (world treeLong)).
Proof.
  destruct (sniffer_reads_only_the_first_512_bytes sniffSample "foo/one"
              "foo/two" longText1 longText2 (world treeLong))
    as [_ H].
  - reflexivity.
  - reflexivity.
  - discriminate.
  - vm_compute. reflexivity.
  - exact H.
Defined.

(** A run over [foo] where [foo/bar.zip] was expanded before. *)
Lemma run_over_expanded_archives_changes_nothing_witness :
  exists w',
    run sniffSample zipSample (optsFor "foo") (world treeDone)
      = Returned None w'
    /\ fs w' = treeDone
    /\ exists t, trace w' = t /\ existsb extractionEvent t = false.
Proof.
  edestruct (run_over_expanded_archives_changes_nothing sniffSample
               zipSample (optsFor "foo") (world treeDone))
    as [w' [E [Hfs [t [Ht Hq]]]]].
  - discriminate.
  - vm_compute. reflexivity.
  - intros z [<-|[]].
    exists "foo/expanded/bar", {| IsDir := true |}. split; reflexivity.
  - exists w'. split; [exact E|]. split; [exact Hfs|].
    exists t. split; [exact Ht | exact Hq].
Defined.


(** After the run over [foo], all four archives have their destinations,
    the one that failed and the one that broke as well. *)
Lemma run_accounts_for_every_archive_witness :
  exists w',
    run sniffSample zipSample (optsFor "foo") (world treeIn)
      = Returned None w'
    /\ forall z,
         In z ["foo/bar.zip"; "foo/baz.zip"; "foo/broken.zip";
               "foo/data.bin"] ->
         present (fs w') (elements (destinationOf z))
         \/ exists e, In (mkdirLog (destinationOf z) e) (trace w').
Proof.
  eexists. split; [vm_compute; reflexivity|].
  eapply (run_accounts_for_every_archive sniffSample zipSample
            (optsFor "foo") (world treeIn)).
  - discriminate.
  - vm_compute. reflexivity.
  - vm_compute. reflexivity.
Defined.

(** The run over [foo]: two of the four extractions fail, the status is
    0. *)
Lemma run_goes_through_the_whole_list_witness :
  exists w',
    run sniffSample zipSample (optsFor "foo") (world treeIn)
      = Returned None w'
    /\ Execute sniffSample zipSample flagsSample setLogLevelSample
         setupLoggerSample ["--data-dir"; "foo"] (world treeIn)
       = Returned 0%Z w'
    /\ filter isStat (trace w')
       = map OsStat ["foo/expanded/bar"; "foo/expanded/baz";
                     "foo/expanded/broken"; "foo/expanded/data"].
Proof.
  edestruct (run_goes_through_the_whole_list sniffSample zipSample
               flagsSample setLogLevelSample setupLoggerSample
               ["--data-dir"; "foo"] (optsFor "foo") (optsFor "foo")
               (world treeIn))
    as [w' [Hrun [Hexec Hstat]]].
  - reflexivity.
  - reflexivity.
  - reflexivity.
  - discriminate.
  - vm_compute. reflexivity.
  - intros z [<-|[<-|[<-|[<-|[]]]]]; vm_compute; lia.
  - exists w'. split; [exact Hrun|]. split; [exact Hexec|].
    rewrite Hstat. vm_compute. reflexivity.
Defined.

(** The destination of [foo/bar.zip] is not the empty path. *)
Lemma program_paths_are_not_empty_witness :
  "foo/expanded/bar" <> "" /\ Join ["out"; "a/b.txt"] <> "".
Proof.
  destruct program_paths_are_not_empty as [Hdest [Htarget _]].
  split.
  - apply (Hdest "foo/bar.zip"). reflexivity.
  - apply (Htarget "out" (fileEntry "a/b.txt" "hello")). discriminate.
Defined.
